(** * Combined savings algorithm for vehicle routing: model and properties

    Shallow embedding of [main.py] (class [CombinedSavingsAlgorithm]) and of
    [utils/distance_utils.py], [utils/location_utils.py] and
    [utils/vehicle_utils.py].

    Conventions of the embedding.
    - Python's [float] is an abstract number type [F] with the operations the
      program uses ([Number]).  Two instances are given: binary64
      ([float_Number], the arithmetic of the program itself, with its
      rounding) and the integers ([Z_Number], for small exact examples).
      A theorem that needs a fact about [<] or about the distance formula
      names it as a law class; these laws hold for binary64 as long as no
      NaN and no infinity occurs.  No theorem assumes that floating-point
      addition is associative or strictly monotone: it is neither.
    - [float('inf')] is the value [None] of [option F], above every number.
    - Python's [int] demands and capacities are [Z]; customer indices are
      [nat].
    - A [dict] is an association list in insertion order, with the update
      and deletion behaviour of Python dictionaries.
    - Exceptions are values of [exn]; a computation that may raise lives in
      the monad [M].
    - Printing and plotting are left out.  [plot_locations] (called once by
      the main program) and [plot_current_routes] (called after every
      committed merge) change nothing the engine reads, but they look up
      [locations["Depot"]] and the vehicle names and raise when a lookup
      fails; a statement that the model returns is a statement about the
      engine without these two calls. *)

From Stdlib Require Import PrimFloat.
From Stdlib Require Import String.
From Stdlib Require Import List ZArith Bool Lia Permutation Sorted.
Import ListNotations.

Set Implicit Arguments.

(** ** Exceptions *)

Inductive exn : Type :=
| IndexError
| KeyError
| AttributeError
| TypeError.

Definition M (A : Type) : Type := (exn + A)%type.

Definition ret {A : Type} (a : A) : M A := inr a.

Definition raise {A : Type} (e : exn) : M A := inl e.

Definition bind {A B : Type} (m : M A) (f : A -> M B) : M B :=
  match m with
  | inl e => inl e
  | inr a => f a
  end.

Notation "x <- m ;; k" := (bind m (fun x => k))
  (at level 61, m at next level, right associativity).

Fixpoint mapM {A B : Type} (f : A -> M B) (l : list A) : M (list B) :=
  match l with
  | [] => ret []
  | a :: l' => b <- f a ;; bs <- mapM f l' ;; ret (b :: bs)
  end.

Fixpoint foldM {A S : Type} (f : S -> A -> M S) (l : list A) (s : S) : M S :=
  match l with
  | [] => ret s
  | a :: l' => s' <- f s a ;; foldM f l' s'
  end.

(** [l[i]] for a non-negative index. *)
Definition index {A : Type} (l : list A) (i : nat) : M A :=
  match nth_error l i with
  | Some a => ret a
  | None => raise IndexError
  end.

(** ** Dictionaries *)

Section Dict.
Context {K V : Type} (eqb : K -> K -> bool).

(** [d[k]] *)
Fixpoint dict_get (d : list (K * V)) (k : K) : M V :=
  match d with
  | [] => raise KeyError
  | (k', v) :: d' => if eqb k' k then ret v else dict_get d' k
  end.

(** [d[k] = v]: an existing key keeps its position. *)
Fixpoint dict_set (d : list (K * V)) (k : K) (v : V) : list (K * V) :=
  match d with
  | [] => [(k, v)]
  | (k', v') :: d' =>
      if eqb k' k then (k', v) :: d' else (k', v') :: dict_set d' k v
  end.

(** [del d[k]] *)
Fixpoint dict_del (d : list (K * V)) (k : K) : M (list (K * V)) :=
  match d with
  | [] => raise KeyError
  | (k', v) :: d' =>
      if eqb k' k then ret d'
      else (d'' <- dict_del d' k ;; ret ((k', v) :: d''))
  end.
End Dict.

(** Equality of tuples of customer indices. *)
Fixpoint tuple_eqb (a b : list nat) : bool :=
  match a, b with
  | [], [] => true
  | x :: a', y :: b' => Nat.eqb x y && tuple_eqb a' b'
  | _, _ => false
  end.

(** ** Numbers *)

Class Number (F : Type) : Type := {
  fzero : F;
  fhundred : F;
  fadd : F -> F -> F;
  fsub : F -> F -> F;
  fmul : F -> F -> F;
  fsqrt : F -> F;
  fltb : F -> F -> bool
}.

(** [<] is a strict weak order: what sorting and minimum search rely on. *)
Class OrderLaws (F : Type) `{Number F} : Prop := {
  fltb_irrefl : forall x, fltb x x = false;
  fltb_trans : forall x y z, fltb x y = true -> fltb y z = true -> fltb x z = true;
  fltb_cotrans : forall x y z, fltb x z = true -> fltb x y = true \/ fltb y z = true
}.

(** What the distance formula needs for a zero diagonal and for symmetry. *)
Class MetricLaws (F : Type) `{Number F} : Prop := {
  fsub_diag : forall x, fsub x x = fzero;
  fmul_zero : fmul fzero fzero = fzero;
  fadd_zero : fadd fzero fzero = fzero;
  fsqrt_zero : fsqrt fzero = fzero;
  fmul_hundred_zero : fmul fhundred fzero = fzero;
  fsq_sub_sym : forall x y, fmul (fsub x y) (fsub x y) = fmul (fsub y x) (fsub y x)
}.

Arguments OrderLaws F {_}.
Arguments MetricLaws F {_}.

#[export] Instance Z_Number : Number Z := {|
  fzero := 0%Z;
  fhundred := 100%Z;
  fadd := Z.add;
  fsub := Z.sub;
  fmul := Z.mul;
  fsqrt := Z.sqrt;
  fltb := Z.ltb
|}.

(** ** Stable sorting

    [sorted(xs, key=...)] and [xs.sort(reverse=True, key=...)] are stable:
    elements with equal keys keep their relative order, also under
    [reverse=True].  They are modelled by stable insertion sorts that use
    only [<] on keys, as Python's sort does. *)

Section Sorting.
Context {F : Type} `{Number F} {A : Type} (key : A -> F).

Fixpoint insert_asc (x : A) (l : list A) : list A :=
  match l with
  | [] => [x]
  | y :: l' =>
      if fltb (key y) (key x) then y :: insert_asc x l' else x :: l
  end.

Definition sorted (l : list A) : list A := fold_right insert_asc [] l.

Fixpoint insert_desc (x : A) (l : list A) : list A :=
  match l with
  | [] => [x]
  | y :: l' =>
      if fltb (key x) (key y) then y :: insert_desc x l' else x :: l
  end.

Definition sort_reverse (l : list A) : list A := fold_right insert_desc [] l.

(** [x] and [y] have keys that [<] does not separate. *)
Definition tied (x y : A) : bool :=
  negb (fltb (key x) (key y)) && negb (fltb (key y) (key x)).

(** Ascending: no later element has a smaller key than an earlier one. *)
Definition ascending : list A -> Prop :=
  StronglySorted (fun a b => fltb (key b) (key a) = false).

(** Descending: no later element has a greater key than an earlier one. *)
Definition descending : list A -> Prop :=
  StronglySorted (fun a b => fltb (key a) (key b) = false).
End Sorting.

(** ** Data: [CustomerLocation], [VehicleType], the algorithm object *)

Section Model.
Context {F : Type} `{Number F}.

Record CustomerLocation : Type := mkCustomerLocation {
  customer_id : string;
  latitude : F;
  longitude : F;
  demand : Z
}.

Record VehicleType : Type := mkVehicleType {
  name : string;
  capacity : Z;
  cost_per_km : F
}.

(** A value of [self.routes]: [{"route": ..., "vehicle": ...}]; the vehicle
    is [None] when [find_smallest_vehicle] found none. *)
Record RouteInfo : Type := mkRouteInfo {
  route : list nat;
  vehicle : option VehicleType
}.

Record CombinedSavingsAlgorithm : Type := mkAlgorithm {
  locations : list (string * CustomerLocation);
  vehicle_types : list (string * VehicleType);
  location_keys : list string;
  cost_matrix : list (list F);
  routes : list (list nat * RouteInfo)
}.

(** [utils/distance_utils.py], [calculate_distance]. *)
Definition calculate_distance (loc1 loc2 : CustomerLocation) : F :=
  let dlat := fsub (latitude loc1) (latitude loc2) in
  let dlon := fsub (longitude loc1) (longitude loc2) in
  fmul fhundred (fsqrt (fadd (fmul dlat dlat) (fmul dlon dlon))).

(** [locations[location_keys[i]]] *)
Definition location_at (locs : list (string * CustomerLocation))
    (keys : list string) (i : nat) : M CustomerLocation :=
  k <- index keys i ;; dict_get String.eqb locs k.

(** [calculate_cost_matrix]: every cell of the [n] by [n] array is
    assigned, row by row. *)
Definition calculate_cost_matrix (locs : list (string * CustomerLocation))
    (keys : list string) : M (list (list F)) :=
  let n_customers := length locs in
  mapM (fun i =>
    mapM (fun j =>
      loc1 <- location_at locs keys i ;;
      loc2 <- location_at locs keys j ;;
      ret (calculate_distance loc1 loc2))
      (seq 0 n_customers))
    (seq 0 n_customers).

(** [find_smallest_vehicle], on the catalog [vts]. *)
Definition find_smallest_vehicle (vts : list (string * VehicleType))
    (d : Z) : option VehicleType :=
  let sorted_vehicle_types := sorted cost_per_km (map snd vts) in
  find (fun v => (d <=? capacity v)%Z) sorted_vehicle_types.

(** [__init__]: the dict comprehension inserts one singleton route per
    customer index. *)
Definition init (locs : list (string * CustomerLocation))
    (vts : list (string * VehicleType)) : M CombinedSavingsAlgorithm :=
  let keys := map fst locs in
  cm <- calculate_cost_matrix locs keys ;;
  rs <- foldM (fun d i =>
          loc <- location_at locs keys (i + 1) ;;
          ret (dict_set tuple_eqb d [i + 1]
                 (mkRouteInfo [i + 1] (find_smallest_vehicle vts (demand loc)))))
        (seq 0 (length locs - 1)) [] ;;
  ret (mkAlgorithm locs vts keys cm rs).

(** [self.cost_matrix[a][b]] *)
Definition cost_at (self : CombinedSavingsAlgorithm) (a b : nat) : M F :=
  row <- index (cost_matrix self) a ;; index row b.

(** The loop of [calculate_route_distance] over consecutive stops. *)
Fixpoint legs_distance (self : CombinedSavingsAlgorithm) (rt : list nat)
    (distance : F) : M F :=
  match rt with
  | a :: ((b :: _) as tl) =>
      c <- cost_at self a b ;; legs_distance self tl (fadd distance c)
  | _ => ret distance
  end.

(** [route[-1]] *)
Definition last_stop (rt : list nat) : M nat :=
  match rt with
  | [] => raise IndexError
  | _ :: _ => ret (last rt 0)
  end.

(** [calculate_route_distance] *)
Definition calculate_route_distance (self : CombinedSavingsAlgorithm)
    (rt : list nat) : M F :=
  distance <- legs_distance self rt fzero ;;
  first <- index rt 0 ;;
  c1 <- cost_at self 0 first ;;
  lst <- last_stop rt ;;
  c2 <- cost_at self lst 0 ;;
  ret (fadd distance (fadd c1 c2)).

(** The list [merged_routes] of [combine_routes]. *)
Definition merged_routes (route1 route2 : list nat) : list (list nat) :=
  [ route1 ++ route2;
    route2 ++ route1;
    rev route1 ++ route2;
    route1 ++ rev route2 ].

(** [distance < min_distance], where [min_distance] starts at
    [float('inf')]. *)
Definition below (distance : F) (min_distance : option F) : bool :=
  match min_distance with
  | None => true
  | Some m => fltb distance m
  end.

(** One iteration of the minimum search of [combine_routes]. *)
Definition combine_step (self : CombinedSavingsAlgorithm)
    (acc : option F * option (list nat)) (rt : list nat)
    : M (option F * option (list nat)) :=
  distance <- calculate_route_distance self rt ;;
  if below distance (fst acc) then ret (Some distance, Some rt) else ret acc.

(** [combine_routes]; [best_route] is [None] until a candidate is kept. *)
Definition combine_routes (self : CombinedSavingsAlgorithm)
    (route1 route2 : list nat) : M (option (list nat)) :=
  r <- foldM (combine_step self) (merged_routes route1 route2) (None, None) ;;
  ret (snd r).

(** The nested loops of [optimize_routes] that fill [savings]. *)
Definition compute_savings (self : CombinedSavingsAlgorithm)
    : M (list (F * nat * nat)) :=
  let n_customers := length (locations self) - 1 in
  foldM (fun savings i =>
    foldM (fun savings j =>
      savings_ij <- (a <- cost_at self 0 (i + 1) ;;
                     b <- cost_at self 0 (j + 1) ;;
                     c <- cost_at self (i + 1) (j + 1) ;;
                     ret (fsub (fadd a b) c)) ;;
      ret (savings ++ [(savings_ij, i + 1, j + 1)]))
      (seq (i + 1) (n_customers - (i + 1))) savings)
    (seq 0 n_customers) [].

(** [next((key for key, value in routes.items() if i in value["route"]), None)] *)
Definition find_route_key (rs : list (list nat * RouteInfo)) (i : nat)
    : option (list nat) :=
  option_map fst (find (fun kv => existsb (Nat.eqb i) (route (snd kv))) rs).

(** Truth value of a tuple. *)
Definition truthy (k : list nat) : bool :=
  match k with
  | [] => false
  | _ :: _ => true
  end.

(** [x.cost_per_km] and the like on a value that may be [None]. *)
Definition attr (v : option VehicleType) : M VehicleType :=
  match v with
  | Some x => ret x
  | None => raise AttributeError
  end.

(** [sum(locations[location_keys[c]].demand for c in rt)] *)
Definition total_demand_of (self : CombinedSavingsAlgorithm)
    (rt : list nat) : M Z :=
  foldM (fun acc c =>
    loc <- location_at (locations self) (location_keys self) c ;;
    ret (acc + demand loc)%Z) rt 0%Z.

Definition set_routes (self : CombinedSavingsAlgorithm)
    (rs : list (list nat * RouteInfo)) : CombinedSavingsAlgorithm :=
  mkAlgorithm (locations self) (vehicle_types self) (location_keys self)
    (cost_matrix self) rs.

(** The body of the loop [for saving, i, j in savings] of
    [optimize_routes]. *)
Definition merge_step (self : CombinedSavingsAlgorithm)
    (s : F * nat * nat) : M CombinedSavingsAlgorithm :=
  let i := snd (fst s) in
  let j := snd s in
  match find_route_key (routes self) i, find_route_key (routes self) j with
  | Some route_i_key, Some route_j_key =>
      if truthy route_i_key && truthy route_j_key
         && negb (tuple_eqb route_i_key route_j_key)
      then
        info_i <- dict_get tuple_eqb (routes self) route_i_key ;;
        info_j <- dict_get tuple_eqb (routes self) route_j_key ;;
        let route_i := route info_i in
        let route_j := route info_j in
        total_demand <- total_demand_of self (route_i ++ route_j) ;;
        match find_smallest_vehicle (vehicle_types self) total_demand with
        | None => ret self
        | Some combined_vehicle =>
            best_route <- combine_routes self route_i route_j ;;
            original_distance_i <- calculate_route_distance self route_i ;;
            original_distance_j <- calculate_route_distance self route_j ;;
            vehicle_i <- attr (vehicle info_i) ;;
            vehicle_j <- attr (vehicle info_j) ;;
            let original_cost :=
              fadd (fmul original_distance_i (cost_per_km vehicle_i))
                   (fmul original_distance_j (cost_per_km vehicle_j)) in
            best <- match best_route with
                    | Some b => ret b
                    | None => raise TypeError
                    end ;;
            new_distance <- calculate_route_distance self best ;;
            let new_cost := fmul new_distance (cost_per_km combined_vehicle) in
            if fltb new_cost original_cost then
              rs1 <- dict_del tuple_eqb (routes self) route_i_key ;;
              rs2 <- dict_del tuple_eqb rs1 route_j_key ;;
              ret (set_routes self
                     (dict_set tuple_eqb rs2 best
                        (mkRouteInfo best (Some combined_vehicle))))
            else ret self
        end
      else ret self
  | _, _ => ret self
  end.

(** [optimize_routes]: the savings are computed and sorted once, then the
    loop makes one pass over them. *)
Definition optimize_routes (self : CombinedSavingsAlgorithm)
    : M CombinedSavingsAlgorithm :=
  savings <- compute_savings self ;;
  foldM merge_step (sort_reverse (fun x => fst (fst x)) savings) self.

(** [print_optimized_routes], its totals [(total_distance, total_cost)];
    the summary strings read the same cells and attributes again. *)
Definition print_optimized_routes (self : CombinedSavingsAlgorithm)
    : M (F * F) :=
  foldM (fun totals route_info =>
    route_distance <- calculate_route_distance self (route (snd route_info)) ;;
    v <- attr (vehicle (snd route_info)) ;;
    let route_cost := fmul route_distance (cost_per_km v) in
    ret (fadd (fst totals) route_distance, fadd (snd totals) route_cost))
    (routes self) (fzero, fzero).

(** The main program: build the object, optimise, report. *)
Definition main (locs : list (string * CustomerLocation))
    (vts : list (string * VehicleType)) : M (CombinedSavingsAlgorithm * (F * F)) :=
  algorithm <- init locs vts ;;
  algorithm' <- optimize_routes algorithm ;;
  totals <- print_optimized_routes algorithm' ;;
  ret (algorithm', totals).
End Model.

Arguments CustomerLocation F : clear implicits.
Arguments VehicleType F : clear implicits.
Arguments RouteInfo F : clear implicits.
Arguments CombinedSavingsAlgorithm F : clear implicits.

(** ** [utils/distance_utils.py], [is_symmetric]

    A two-dimensional array is the list of its rows, all of one length.
    [==] on numbers is a separate operation; [np.array_equal] compares the
    shapes and then the cells. *)

Class NumberEq (F : Type) : Type := {
  feqb : F -> F -> bool
}.

(** [==] decides equality: true for the integers and the reals, false for a
    float NaN. *)
Class EqLaws (F : Type) `{NumberEq F} : Prop := {
  feqb_eq : forall x y, feqb x y = true <-> x = y
}.

Arguments EqLaws F {_}.

#[export] Instance Z_NumberEq : NumberEq Z := {| feqb := Z.eqb |}.

Section Symmetry.
Context {F : Type} `{Number F} `{NumberEq F}.

(** The second component of [matrix.shape]. *)
Definition ncols (m : list (list F)) : nat :=
  match m with
  | [] => 0
  | row :: _ => length row
  end.

(** [matrix.T]: row [j] of the result is column [j] of the argument. *)
Definition transpose (m : list (list F)) : list (list F) :=
  map (fun j => map (fun row => nth j row fzero) m) (seq 0 (ncols m)).

(** [np.array_equal(a, b)] *)
Definition array_equal (a b : list (list F)) : bool :=
  Nat.eqb (length a) (length b) && Nat.eqb (ncols a) (ncols b)
  && forallb (fun rows =>
                forallb (fun cells => feqb (fst cells) (snd cells))
                        (combine (fst rows) (snd rows)))
             (combine a b).

(** [is_symmetric] *)
Definition is_symmetric (matrix : list (list F)) : bool :=
  array_equal matrix (transpose matrix).

(** All rows have the length of the first. *)
Definition rectangular (m : list (list F)) : Prop :=
  Forall (fun row => length row = ncols m) m.
End Symmetry.

(** ** The shipped data ([data/vehicle_types.py]) and small test inputs, over
    the integers (costs per km scaled by ten). *)

Definition loc (id : string) (lat lon : Z) (d : Z) : string * CustomerLocation Z :=
  (id, mkCustomerLocation id lat lon d).

Definition type_a : VehicleType Z := mkVehicleType "Type A" 25%Z 12%Z.
Definition type_b : VehicleType Z := mkVehicleType "Type B" 30%Z 15%Z.

Definition vehicle_types_data : list (string * VehicleType Z) :=
  [("Type A"%string, type_a); ("Type B"%string, type_b)].


(** The cell [cm[i][j]] of a matrix, when it exists. *)
Definition entry {F : Type} (cm : list (list F)) (i j : nat) : option F :=
  match nth_error cm i with
  | Some row => nth_error row j
  | None => None
  end.

Definition sample_locations : list (string * CustomerLocation Z) :=
  [loc "Depot" 0 0 0; loc "1" 3 4 5; loc "2" 3 5 8; loc "3" (-6) 0 20]%Z.

(** The object [__init__] builds for the sample. *)
Definition sample_algorithm : CombinedSavingsAlgorithm Z :=
  match init sample_locations vehicle_types_data with
  | inr a => a
  | inl _ => mkAlgorithm [] [] [] [] []
  end.

(** Two customers that no vehicle can serve together, and one customer that
    no vehicle can serve at all. *)
Definition tight_locations : list (string * CustomerLocation Z) :=
  [loc "Depot" 0 0 0; loc "1" 3 4 20; loc "2" 3 5 20]%Z.

Definition oversized_locations : list (string * CustomerLocation Z) :=
  [loc "Depot" 0 0 0; loc "1" 3 4 31]%Z.

(** The object [__init__] builds for the oversized customer. *)
Definition oversized_algorithm : CombinedSavingsAlgorithm Z :=
  match init oversized_locations vehicle_types_data with
  | inr a => a
  | inl _ => mkAlgorithm [] [] [] [] []
  end.

(** The sample after the loop iteration for the pair [(1, 2)]. *)
Definition sample_merged : CombinedSavingsAlgorithm Z :=
  match merge_step sample_algorithm (900%Z, 1, 2) with
  | inr a => a
  | inl _ => sample_algorithm
  end.

(** ** Binary64

    Python's [float] and NumPy's [float64] are IEEE 754 binary64 with
    rounding to nearest, as are the primitive floats.  [calculate_distance]
    takes [x ** 2] to be the rounded product [x * x]; for integer-valued
    coordinates, as in the collinear instance below, the square is exact
    either way. *)

#[export] Instance float_Number : Number float := {|
  fzero := 0%float;
  fhundred := 100%float;
  fadd := PrimFloat.add;
  fsub := PrimFloat.sub;
  fmul := PrimFloat.mul;
  fsqrt := PrimFloat.sqrt;
  fltb := PrimFloat.ltb
|}.

Definition floc (id : string) (lat lon : float) (d : Z)
    : string * CustomerLocation float :=
  (id, mkCustomerLocation id lat lon d).

(** [data/vehicle_types.py]: a decimal literal denotes the nearest binary64
    value, as in Python. *)
#[local] Set Warnings "-inexact-float".

Definition float_type_a : VehicleType float :=
  mkVehicleType "Type A" 25%Z 1.2%float.
Definition float_type_b : VehicleType float :=
  mkVehicleType "Type B" 30%Z 1.5%float.

Definition vehicle_types_float : list (string * VehicleType float) :=
  [("Type A"%string, float_type_a); ("Type B"%string, float_type_b)].

(** [data/locations.py] *)
Definition locations_data : list (string * CustomerLocation float) :=
  [floc "Depot" 4.4184 114.0932 0;
   floc "1" 4.3555 113.9777 5;
   floc "2" 4.3976 114.0049 8;
   floc "3" 4.3163 114.0764 3;
   floc "4" 4.3184 113.9932 6;
   floc "5" 4.4024 113.9896 5;
   floc "6" 4.4142 114.0127 8;
   floc "7" 4.4804 114.0734 3;
   floc "8" 4.3818 114.2034 6;
   floc "9" 4.4935 114.1828 5;
   floc "10" 4.4932 114.1322 8]%float.

(** The object [__init__] builds for the shipped data. *)
Definition shipped_algorithm : CombinedSavingsAlgorithm float :=
  match init locations_data vehicle_types_float with
  | inr a => a
  | inl _ => mkAlgorithm [] [] [] [] []
  end.




(** ** Vocabulary of the statements *)

Section Vocabulary.
Context {F : Type} `{Number F}.

(** A vehicle covers a demand. *)
Definition feasible (d : Z) (v : VehicleType F) : bool :=
  (d <=? capacity v)%Z.

(** No feasible vehicle of [vs] is strictly cheaper per km than [v]. *)
Definition cheapest_among (d : Z) (vs : list (VehicleType F))
    (v : VehicleType F) : bool :=
  forallb (fun w =>
    implb (feasible d w) (negb (fltb (cost_per_km w) (cost_per_km v)))) vs.

(** The vehicle selector in the words of its description: the first vehicle,
    in catalog order, among the feasible vehicles of minimal cost per km. *)
Definition cheapest_feasible (vts : list (string * VehicleType F)) (d : Z)
    : option (VehicleType F) :=
  let vs := map snd vts in
  find (fun v => feasible d v && cheapest_among d vs v) vs.
(** A matrix with [n] rows of [n] cells. *)
Definition square (n : nat) (cm : list (list F)) : Prop :=
  length cm = n /\ Forall (fun row => length row = n) cm.

(** Every stop of a route is an index of the matrix. *)
Definition in_range (n : nat) (rt : list nat) : Prop :=
  Forall (fun c => c < n) rt.
(** The stops of all routes of a RouteSet, route after route. *)
Definition all_stops (rs : list (list nat * RouteInfo F)) : list nat :=
  concat (map (fun kv => route (snd kv)) rs).

(** The customer indices [1 .. n] of an instance with [n + 1] locations. *)
Definition customers (self : CombinedSavingsAlgorithm F) : list nat :=
  seq 1 (length (locations self) - 1).

(** The routes partition the customers: the stops of all routes together are
    the customer indices, each exactly once. *)
Definition partition_ok (self : CombinedSavingsAlgorithm F) : Prop :=
  Permutation (all_stops (routes self)) (customers self).

(** Customer [c] is a stop of exactly one route of [rs], once. *)
Definition exactly_once (rs : list (list nat * RouteInfo F)) (c : nat) : Prop :=
  exists k kv,
    nth_error rs k = Some kv /\
    count_occ Nat.eq_dec (route (snd kv)) c = 1 /\
    forall k' kv', nth_error rs k' = Some kv' ->
                   In c (route (snd kv')) -> k' = k.

(** Every key is the tuple of its route, and no route is empty. *)
Definition keyed (rs : list (list nat * RouteInfo F)) : Prop :=
  Forall (fun kv => fst kv = route (snd kv) /\ route (snd kv) <> []) rs.

(** What [__init__] establishes and no method changes. *)
Definition static_ok (self : CombinedSavingsAlgorithm F) : Prop :=
  location_keys self = map fst (locations self) /\
  square (length (locations self)) (cost_matrix self).

(** The invariant of the merge loop. *)
Definition invariant (self : CombinedSavingsAlgorithm F) : Prop :=
  static_ok self /\ keyed (routes self) /\ partition_ok self.



(** The cost of one route: round-trip distance times cost per km of its
    vehicle, as [print_optimized_routes] computes it. *)
Definition route_cost (self : CombinedSavingsAlgorithm F)
    (info : RouteInfo F) : M F :=
  route_distance <- calculate_route_distance self (route info) ;;
  v <- attr (vehicle info) ;;
  ret (fmul route_distance (cost_per_km v)).

(** The loop body committed a merge for the pair [(i, j)]: every
    intermediate value of the accepting path of [merge_step]. *)
Inductive committed (self : CombinedSavingsAlgorithm F) (i j : nat)
    (self' : CombinedSavingsAlgorithm F) : Prop :=
| Committed (route_i_key route_j_key : list nat) (info_i info_j : RouteInfo F)
    (total_demand : Z) (combined_vehicle vehicle_i vehicle_j : VehicleType F)
    (best : list nat) (di dj dn : F)
    (rs1 rs2 : list (list nat * RouteInfo F))
    (Hkey_i : find_route_key (routes self) i = Some route_i_key)
    (Hkey_j : find_route_key (routes self) j = Some route_j_key)
    (Hdistinct : route_i_key <> route_j_key)
    (Hinfo_i : dict_get tuple_eqb (routes self) route_i_key = inr info_i)
    (Hinfo_j : dict_get tuple_eqb (routes self) route_j_key = inr info_j)
    (Hdemand : total_demand_of self (route info_i ++ route info_j)
               = inr total_demand)
    (Hvehicle : find_smallest_vehicle (vehicle_types self) total_demand
                = Some combined_vehicle)
    (Hbest : combine_routes self (route info_i) (route info_j)
             = inr (Some best))
    (Hdi : calculate_route_distance self (route info_i) = inr di)
    (Hdj : calculate_route_distance self (route info_j) = inr dj)
    (Hvi : vehicle info_i = Some vehicle_i)
    (Hvj : vehicle info_j = Some vehicle_j)
    (Hdn : calculate_route_distance self best = inr dn)
    (Hcheaper : fltb (fmul dn (cost_per_km combined_vehicle))
                     (fadd (fmul di (cost_per_km vehicle_i))
                           (fmul dj (cost_per_km vehicle_j))) = true)
    (Hdel_i : dict_del tuple_eqb (routes self) route_i_key = inr rs1)
    (Hdel_j : dict_del tuple_eqb rs1 route_j_key = inr rs2)
    (Hself' : self' = set_routes self
                (dict_set tuple_eqb rs2 best
                   (mkRouteInfo best (Some combined_vehicle)))).
(** The unordered pairs of the customers [1 .. n], first index ascending,
    second index ascending within the first. *)
Definition customer_pairs (n : nat) : list (nat * nat) :=
  flat_map (fun a => map (fun b => (a, b)) (seq (a + 1) (n - a))) (seq 1 n).

(** The saving of the pair [(a, b)] read off a cost matrix. *)
Definition saving_of (cm : list (list F)) (a b : nat) (v : F) : Prop :=
  exists ca cb cab,
    entry cm 0 a = Some ca /\ entry cm 0 b = Some cb /\
    entry cm a b = Some cab /\ v = fsub (fadd ca cb) cab.

(** The entry [__init__] creates for customer [i + 1]. *)
Definition initial_entry (locs : list (string * CustomerLocation F))
    (vts : list (string * VehicleType F)) (i : nat) (kv : list nat * RouteInfo F) : Prop :=
  exists lc,
    location_at locs (map fst locs) (i + 1) = inr lc /\
    kv = ([i + 1], mkRouteInfo [i + 1] (find_smallest_vehicle vts (demand lc))).


(** The entries of one row of the enumeration: the pairs [(i + 1, j + 1)]
    for [j] from [i + 1] on, each with its saving. *)
Definition savings_row (self : CombinedSavingsAlgorithm F) (n i : nat) (items : list (F * nat * nat)) : Prop :=
  Forall2 (fun j x =>
             saving_of (cost_matrix self) (i + 1) (j + 1) (fst (fst x)) /\
             snd (fst x) = i + 1 /\ snd x = j + 1)
          (seq (i + 1) (n - (i + 1))) items.

(** Some route of the RouteSet has no vehicle. *)
Definition has_none (self : CombinedSavingsAlgorithm F) : Prop :=
  exists k info, In (k, info) (routes self) /\ vehicle info = None.

(** The assignment policy: every route carries what [find_smallest_vehicle]
    returns for the summed demand of its stops. *)
Definition assigned_ok (self : CombinedSavingsAlgorithm F) : Prop :=
  Forall (fun kv =>
            exists td,
              total_demand_of self (route (snd kv)) = inr td /\
              vehicle (snd kv) = find_smallest_vehicle (vehicle_types self) td)
         (routes self).

(** The entries of a RouteSet other than those under the keys [ki], [kj]. *)
Definition without_keys (ki kj : list nat)
    (rs : list (list nat * RouteInfo F)) : list (list nat * RouteInfo F) :=
  filter (fun kv => negb (tuple_eqb (fst kv) ki) && negb (tuple_eqb (fst kv) kj))
         rs.

(** A matrix that equals its transpose, cell by cell. *)
Definition symmetric (cm : list (list F)) : Prop :=
  forall i j, entry cm i j = entry cm j i.

(** The consecutive pairs of stops of a route. *)
Fixpoint legs (rt : list nat) : list (nat * nat) :=
  match rt with
  | a :: ((b :: _) as tl) => (a, b) :: legs tl
  | _ => []
  end.

(** The cells of the given legs added to [acc], one after the other. *)
Fixpoint legs_sum (cm : list (list F)) (ls : list (nat * nat)) (acc : F)
    : option F :=
  match ls with
  | [] => Some acc
  | (a, b) :: ls' =>
      match entry cm a b with
      | Some c => legs_sum cm ls' (fadd acc c)
      | None => None
      end
  end.

(** Round-trip distance in the words of its description: the sum of the
    legs between consecutive stops, plus the leg from the depot to the first
    stop and the leg from the last stop back to the depot, each leg a cell of
    the cost matrix.  Undefined for the empty route and for a leg outside
    the matrix. *)
Definition round_trip (cm : list (list F)) (rt : list nat) : option F :=
  match rt with
  | [] => None
  | first :: _ =>
      match legs_sum cm (legs rt) fzero,
            entry cm 0 first, entry cm (last rt 0) 0 with
      | Some between, Some out, Some back =>
          Some (fadd between (fadd out back))
      | _, _, _ => None
      end
  end.

End Vocabulary.

(** * Properties *)

Unset Implicit Arguments.

(** ** The exception monad *)

Lemma bind_inr_l {A B : Type} (a : A) (f : A -> M B) : bind (inr a) f = f a.
Proof. reflexivity. Qed.

Lemma bind_inr {A B : Type} (m : M A) (f : A -> M B) (b : B) :
  bind m f = inr b <-> exists a, m = inr a /\ f a = inr b.
Proof.
  destruct m as [e | a]; simpl; split.
  - discriminate.
  - intros (a & Ha & _); discriminate.
  - intros Hf; exists a; auto.
  - intros (a' & Ha & Hf); injection Ha as ->; exact Hf.
Qed.

(** Decompose a successful computation along its binds. *)
Ltac inv_bind H :=
  repeat match type of H with
  | bind _ _ = inr _ =>
      let a := fresh "a" in
      let Ha := fresh "Ha" in
      apply bind_inr in H; destruct H as (a & Ha & H)
  | ret _ = inr _ => injection H as H
  | inr _ = inr _ => injection H as H
  | raise _ = inr _ => discriminate H
  | inl _ = inr _ => discriminate H
  end.

Lemma index_inr {A : Type} (l : list A) (i : nat) (a : A) :
  index l i = inr a <-> nth_error l i = Some a.
Proof.
  unfold index; destruct (nth_error l i); simpl; split; intros E;
    try discriminate; injection E as ->; reflexivity.
Qed.

Lemma index_lt {A : Type} (l : list A) (i : nat) :
  i < length l -> exists a, index l i = inr a.
Proof.
  intros Hi; unfold index.
  destruct (nth_error l i) as [a |] eqn:E.
  - exists a; reflexivity.
  - apply nth_error_None in E; lia.
Qed.

Lemma mapM_inr {A B : Type} (f : A -> M B) (l : list A) (bs : list B) :
  mapM f l = inr bs <-> Forall2 (fun a b => f a = inr b) l bs.
Proof.
  revert bs; induction l as [| a l IH]; intros bs; simpl.
  - split.
    + intros E; injection E as <-; constructor.
    + intros E; inversion E; reflexivity.
  - split.
    + intros E; inv_bind E; subst bs.
      constructor; [assumption | now apply IH].
    + intros E; inversion E as [| ? b ? bs' Hb Hbs]; subst.
      rewrite Hb; simpl.
      apply IH in Hbs; rewrite Hbs; reflexivity.
Qed.

Lemma mapM_total {A B : Type} (f : A -> M B) (l : list A) :
  (forall a, In a l -> exists b, f a = inr b) ->
  exists bs, mapM f l = inr bs.
Proof.
  induction l as [| a l IH]; intros Hf; simpl.
  - exists []; reflexivity.
  - destruct (Hf a (or_introl eq_refl)) as (b & Hb).
    destruct IH as (bs & Hbs); [intros; apply Hf; now right |].
    exists (b :: bs); rewrite Hb; simpl; rewrite Hbs; reflexivity.
Qed.

Lemma Forall2_nth_error_l {A B : Type} {R : A -> B -> Prop} {l1 l2 i a} :
  Forall2 R l1 l2 -> nth_error l1 i = Some a ->
  exists b, nth_error l2 i = Some b /\ R a b.
Proof.
  intros HF; revert i; induction HF as [| x y l1 l2 Hxy HF IH]; intros i Hi.
  - destruct i; discriminate.
  - destruct i as [| i]; simpl in *.
    + injection Hi as <-; exists y; auto.
    + now apply IH.
Qed.

Lemma nth_error_seq_lt (start : nat) {len i : nat} :
  i < len -> nth_error (seq start len) i = Some (start + i).
Proof.
  revert start i; induction len as [| len IH]; intros start i Hi; [lia |].
  destruct i as [| i]; simpl.
  - f_equal; lia.
  - rewrite IH by lia; f_equal; lia.
Qed.

(** ** Dictionaries with string keys *)

Lemma dict_get_string_in {V : Type} (d : list (string * V)) (k : string) :
  In k (map fst d) -> exists v, dict_get String.eqb d k = inr v.
Proof.
  induction d as [| [k' v] d IH]; simpl; [tauto |].
  intros [-> | Hin].
  - rewrite String.eqb_refl; exists v; reflexivity.
  - destruct (String.eqb k' k); [exists v; reflexivity | auto].
Qed.

Lemma dict_get_string_nth {V : Type} (d : list (string * V)) (i : nat) k v :
  NoDup (map fst d) -> nth_error d i = Some (k, v) ->
  dict_get String.eqb d k = inr v.
Proof.
  revert i; induction d as [| [k' v'] d IH]; intros i Hnd Hi.
  - destruct i; discriminate.
  - simpl in Hnd; inversion Hnd as [| ? ? Hnotin Hnd']; subst.
    destruct i as [| i]; simpl in *.
    + injection Hi as -> ->; rewrite String.eqb_refl; reflexivity.
    + destruct (String.eqb k' k) eqn:E.
      * apply String.eqb_eq in E; subst k'.
        exfalso; apply Hnotin.
        apply nth_error_In in Hi.
        change k with (fst (k, v)); now apply in_map.
      * eapply IH; eauto.
Qed.

(** ** The cost matrix *)

Section CostMatrix.
Context {F : Type} `{Number F}.

Lemma location_at_total (locs : list (string * CustomerLocation F)) (i : nat) :
  i < length locs ->
  exists l, location_at locs (map fst locs) i = inr l.
Proof.
  intros Hi; unfold location_at.
  destruct (index_lt (map fst locs) i) as (k & Hk);
    [now rewrite length_map |].
  rewrite Hk; simpl.
  apply dict_get_string_in.
  apply index_inr in Hk; now apply nth_error_In in Hk.
Qed.

(** With distinct keys, as in every dictionary, the location looked up for
    index [i] is the [i]-th value. *)
Lemma location_at_nth (locs : list (string * CustomerLocation F)) (i : nat) l :
  NoDup (map fst locs) ->
  nth_error (map snd locs) i = Some l ->
  location_at locs (map fst locs) i = inr l.
Proof.
  intros Hnd Hi; unfold location_at.
  rewrite nth_error_map in Hi.
  destruct (nth_error locs i) as [[k v] |] eqn:E; [| discriminate].
  simpl in Hi; injection Hi as ->.
  assert (Hk : index (map fst locs) i = inr k).
  { apply index_inr; rewrite nth_error_map, E; reflexivity. }
  rewrite Hk; simpl; eapply dict_get_string_nth; eauto.
Qed.

Lemma calculate_cost_matrix_total (locs : list (string * CustomerLocation F)) :
  exists cm, calculate_cost_matrix locs (map fst locs) = inr cm.
Proof.
  unfold calculate_cost_matrix.
  apply mapM_total; intros i Hi; apply in_seq in Hi.
  apply mapM_total; intros j Hj; apply in_seq in Hj.
  destruct (location_at_total locs i) as (li & Hli); [lia |].
  destruct (location_at_total locs j) as (lj & Hlj); [lia |].
  rewrite Hli, Hlj; simpl; eexists; reflexivity.
Qed.

Lemma calculate_cost_matrix_shape (locs : list (string * CustomerLocation F)) cm :
  calculate_cost_matrix locs (map fst locs) = inr cm ->
  length cm = length locs /\
  forall row, In row cm -> length row = length locs.
Proof.
  unfold calculate_cost_matrix; intros E.
  apply mapM_inr in E.
  split.
  - apply Forall2_length in E; rewrite length_seq in E; auto.
  - intros row Hrow.
    apply In_nth_error in Hrow; destruct Hrow as (i & Hi).
    apply Forall2_flip in E.
    destruct (Forall2_nth_error_l E Hi) as (a & _ & Ha).
    apply mapM_inr in Ha; apply Forall2_length in Ha.
    rewrite length_seq in Ha; auto.
Qed.

Lemma calculate_cost_matrix_entry (locs : list (string * CustomerLocation F))
    cm i j :
  calculate_cost_matrix locs (map fst locs) = inr cm ->
  i < length locs -> j < length locs ->
  exists li lj,
    location_at locs (map fst locs) i = inr li /\
    location_at locs (map fst locs) j = inr lj /\
    entry cm i j = Some (calculate_distance li lj).
Proof.
  unfold calculate_cost_matrix; intros E Hi Hj.
  apply mapM_inr in E.
  destruct (Forall2_nth_error_l E (nth_error_seq_lt 0 Hi)) as (row & Hrow & Er).
  apply mapM_inr in Er.
  destruct (Forall2_nth_error_l Er (nth_error_seq_lt 0 Hj)) as (c & Hc & Ec).
  simpl in Ec; inv_bind Ec.
  exists a, a0; repeat split; try assumption.
  unfold entry; rewrite Hrow, Hc; congruence.
Qed.

Lemma calculate_distance_diag `{!MetricLaws F} (l : CustomerLocation F) :
  calculate_distance l l = fzero.
Proof.
  unfold calculate_distance.
  rewrite !fsub_diag, fmul_zero, fadd_zero, fsqrt_zero.
  apply fmul_hundred_zero.
Qed.

Lemma calculate_distance_sym `{!MetricLaws F} (l1 l2 : CustomerLocation F) :
  calculate_distance l1 l2 = calculate_distance l2 l1.
Proof.
  unfold calculate_distance.
  rewrite (fsq_sub_sym (latitude l1)), (fsq_sub_sym (longitude l1)).
  reflexivity.
Qed.
End CostMatrix.

(** ** The integers satisfy the laws *)

Lemma Z_OrderLaws : OrderLaws Z.
Proof.
  constructor; simpl.
  - intros x; apply Z.ltb_irrefl.
  - intros x y z Hxy Hyz; apply Z.ltb_lt in Hxy, Hyz; apply Z.ltb_lt; lia.
  - intros x y z Hxz; apply Z.ltb_lt in Hxz.
    destruct (Z.ltb_spec x y); [now left | right; apply Z.ltb_lt; lia].
Qed.

Lemma Z_MetricLaws : MetricLaws Z.
Proof.
  constructor; simpl; try reflexivity.
  - intros; lia.
  - intros; nia.
Qed.

(** ** Stable sorting *)

Section SortingFacts.
Context {F : Type} `{Number F} {A : Type} (key : A -> F).

Lemma insert_asc_perm (x : A) (l : list A) :
  Permutation (insert_asc key x l) (x :: l).
Proof.
  induction l as [| y l IH]; simpl; [reflexivity |].
  destruct (fltb (key y) (key x)); [| reflexivity].
  rewrite IH; apply perm_swap.
Qed.

Lemma sorted_perm (l : list A) : Permutation (sorted key l) l.
Proof.
  induction l as [| x l IH]; simpl; [reflexivity |].
  rewrite insert_asc_perm; now constructor.
Qed.

Lemma insert_desc_perm (x : A) (l : list A) :
  Permutation (insert_desc key x l) (x :: l).
Proof.
  induction l as [| y l IH]; simpl; [reflexivity |].
  destruct (fltb (key x) (key y)); [| reflexivity].
  rewrite IH; apply perm_swap.
Qed.

Lemma sort_reverse_perm (l : list A) : Permutation (sort_reverse key l) l.
Proof.
  induction l as [| x l IH]; simpl; [reflexivity |].
  rewrite insert_desc_perm; now constructor.
Qed.

Context `{!OrderLaws F}.

Lemma fltb_asym (x y : F) : fltb x y = true -> fltb y x = false.
Proof.
  intros Hxy; destruct (fltb y x) eqn:E; [| reflexivity].
  rewrite <- (fltb_irrefl x); symmetry; eapply fltb_trans; eauto.
Qed.

(** "not above" is transitive. *)
Lemma not_fltb_trans (x y z : F) :
  fltb y x = false -> fltb z y = false -> fltb z x = false.
Proof.
  intros Hyx Hzy; destruct (fltb z x) eqn:E; [| reflexivity].
  destruct (fltb_cotrans z y x E); congruence.
Qed.

Lemma tied_refl (x : A) : tied key x x = true.
Proof. unfold tied; rewrite fltb_irrefl; reflexivity. Qed.

Lemma insert_asc_ascending (x : A) (l : list A) :
  ascending key l -> ascending key (insert_asc key x l).
Proof.
  unfold ascending; induction l as [| y l IH]; intros Hs; simpl.
  - constructor; constructor.
  - apply StronglySorted_inv in Hs; destruct Hs as (Hs & Hy).
    destruct (fltb (key y) (key x)) eqn:E.
    + constructor; [auto |].
      eapply Permutation_Forall; [symmetry; apply insert_asc_perm |].
      constructor; [now apply fltb_asym | assumption].
    + constructor; [now constructor |].
      constructor; [assumption |].
      eapply Forall_impl; [| exact Hy].
      intros z Hz; simpl in Hz; eapply not_fltb_trans; eauto.
Qed.

Lemma sorted_ascending (l : list A) : ascending key (sorted key l).
Proof.
  induction l as [| x l IH]; simpl; [constructor |].
  now apply insert_asc_ascending.
Qed.

Lemma insert_desc_descending (x : A) (l : list A) :
  descending key l -> descending key (insert_desc key x l).
Proof.
  unfold descending; induction l as [| y l IH]; intros Hs; simpl.
  - constructor; constructor.
  - apply StronglySorted_inv in Hs; destruct Hs as (Hs & Hy).
    destruct (fltb (key x) (key y)) eqn:E.
    + constructor; [auto |].
      eapply Permutation_Forall; [symmetry; apply insert_desc_perm |].
      constructor; [now apply fltb_asym | assumption].
    + constructor; [now constructor |].
      constructor; [assumption |].
      eapply Forall_impl; [| exact Hy].
      intros z Hz; simpl in Hz; eapply not_fltb_trans; eauto.
Qed.

Lemma sort_reverse_descending (l : list A) : descending key (sort_reverse key l).
Proof.
  induction l as [| x l IH]; simpl; [constructor |].
  now apply insert_desc_descending.
Qed.

(** Two elements tied with a third are not separated by [<]. *)
Lemma tied_not_fltb (z x y : A) :
  tied key z x = true -> tied key z y = true -> fltb (key x) (key y) = false.
Proof.
  unfold tied; intros Hx Hy.
  apply andb_prop in Hx, Hy; destruct Hx as (Hzx & Hxz), Hy as (Hzy & Hyz).
  apply negb_true_iff in Hzx, Hxz, Hzy, Hyz.
  eapply not_fltb_trans; eauto.
Qed.

(** Stability: an insertion passes only elements that are strictly on the
    other side, so every class of tied elements keeps its order. *)
Lemma insert_asc_stable (z x : A) (l : list A) :
  filter (tied key z) (insert_asc key x l) = filter (tied key z) (x :: l).
Proof.
  induction l as [| y l IH]; [reflexivity |].
  simpl insert_asc; destruct (fltb (key y) (key x)) eqn:E; [| reflexivity].
  change (filter (tied key z) (y :: insert_asc key x l))
    with (if tied key z y then y :: filter (tied key z) (insert_asc key x l)
          else filter (tied key z) (insert_asc key x l)).
  rewrite IH; simpl.
  destruct (tied key z y) eqn:Ey, (tied key z x) eqn:Ex; try reflexivity.
  rewrite (tied_not_fltb z y x Ey Ex) in E; discriminate.
Qed.

Lemma sorted_stable (z : A) (l : list A) :
  filter (tied key z) (sorted key l) = filter (tied key z) l.
Proof.
  induction l as [| x l IH]; [reflexivity |].
  simpl sorted; rewrite insert_asc_stable; simpl; rewrite IH; reflexivity.
Qed.

Lemma insert_desc_stable (z x : A) (l : list A) :
  filter (tied key z) (insert_desc key x l) = filter (tied key z) (x :: l).
Proof.
  induction l as [| y l IH]; [reflexivity |].
  simpl insert_desc; destruct (fltb (key x) (key y)) eqn:E; [| reflexivity].
  change (filter (tied key z) (y :: insert_desc key x l))
    with (if tied key z y then y :: filter (tied key z) (insert_desc key x l)
          else filter (tied key z) (insert_desc key x l)).
  rewrite IH; simpl.
  destruct (tied key z y) eqn:Ey, (tied key z x) eqn:Ex; try reflexivity.
  rewrite (tied_not_fltb z x y Ex Ey) in E; discriminate.
Qed.

Lemma sort_reverse_stable (z : A) (l : list A) :
  filter (tied key z) (sort_reverse key l) = filter (tied key z) l.
Proof.
  induction l as [| x l IH]; [reflexivity |].
  simpl sort_reverse; rewrite insert_desc_stable; simpl; rewrite IH; reflexivity.
Qed.
End SortingFacts.

(** ** The vehicle selector *)

Lemma find_andb_first {A : Type} (p q : A -> bool) (l : list A) (v : A) :
  find p l = Some v -> q v = true -> find (fun w => p w && q w) l = Some v.
Proof.
  induction l as [| x l IH]; simpl; [discriminate |].
  destruct (p x) eqn:Ep; simpl.
  - intros E Hq; injection E as ->; rewrite Hq; reflexivity.
  - auto.
Qed.

Lemma find_andb_filter {A : Type} (p q : A -> bool) (l : list A) :
  find (fun w => p w && q w) l = find p (filter q l).
Proof.
  induction l as [| x l IH]; simpl; [reflexivity |].
  destruct (q x); simpl; rewrite ?andb_true_r, ?andb_false_r;
    [destruct (p x) |]; auto.
Qed.

Lemma find_ext_in {A : Type} (p q : A -> bool) (l : list A) :
  (forall x, In x l -> p x = q x) -> find p l = find q l.
Proof.
  induction l as [| x l IH]; simpl; intros Hpq; [reflexivity |].
  rewrite (Hpq x (or_introl eq_refl)), IH; auto.
Qed.

Lemma find_sorted_least {A : Type} (R : A -> A -> Prop) (p : A -> bool)
    (l : list A) (v : A) :
  StronglySorted R l -> find p l = Some v ->
  forall w, In w l -> p w = true -> w = v \/ R v w.
Proof.
  induction 1 as [| x l Hs IH Hx]; simpl; [discriminate |].
  destruct (p x) eqn:Ep.
  - intros E w [<- | Hw] _; injection E as <-; [now left |].
    right; rewrite Forall_forall in Hx; auto.
  - intros E w [<- | Hw] Hp; [congruence | auto].
Qed.

Section VehicleSelector.
Context {F : Type} `{Number F} `{!OrderLaws F}.

Lemma find_smallest_vehicle_none (vts : list (string * VehicleType F)) (d : Z) :
  find_smallest_vehicle vts d = None <->
  forall v, In v (map snd vts) -> (capacity v < d)%Z.
Proof.
  unfold find_smallest_vehicle; split.
  - intros E v Hv.
    eapply Permutation_in in Hv; [| symmetry; apply sorted_perm].
    apply (find_none _ _ E) in Hv; apply Z.leb_gt in Hv; exact Hv.
  - intros Hall.
    destruct (find _ _) as [v |] eqn:E; [| reflexivity].
    apply find_some in E; destruct E as (Hv & Hd).
    eapply Permutation_in in Hv; [| apply sorted_perm].
    apply Hall in Hv; apply Z.leb_le in Hd; lia.
Qed.

Lemma find_smallest_vehicle_some (vts : list (string * VehicleType F)) (d : Z) v :
  find_smallest_vehicle vts d = Some v ->
  In v (map snd vts) /\ (d <= capacity v)%Z /\
  (forall w, In w (map snd vts) -> (d <= capacity w)%Z ->
     fltb (cost_per_km w) (cost_per_km v) = false) /\
  find (fun w => feasible d w && tied cost_per_km v w) (map snd vts) = Some v.
Proof.
  unfold find_smallest_vehicle; intros E.
  pose proof (find_some _ _ E) as (Hv & Hd).
  split; [| split; [| split]].
  - eapply Permutation_in; [apply sorted_perm | exact Hv].
  - now apply Z.leb_le.
  - intros w Hw Hdw.
    eapply Permutation_in in Hw; [| symmetry; apply (sorted_perm cost_per_km)].
    apply Z.leb_le in Hdw.
    pose proof (sorted_ascending cost_per_km (map snd vts)) as Hasc.
    destruct (find_sorted_least _ _ _ _ Hasc E w Hw Hdw)
      as [-> | Hvw]; [exact (fltb_irrefl _) | exact Hvw].
  - rewrite find_andb_filter, <- (sorted_stable cost_per_km v (map snd vts)),
      <- find_andb_filter.
    apply find_andb_first; [exact E | exact (tied_refl cost_per_km v)].
Qed.

Lemma find_smallest_vehicle_spec (vts : list (string * VehicleType F)) (d : Z) :
  find_smallest_vehicle vts d = cheapest_feasible vts d.
Proof.
  destruct (find_smallest_vehicle vts d) as [v |] eqn:E.
  - apply find_smallest_vehicle_some in E.
    destruct E as (Hv & Hd & Hmin & Hfirst).
    unfold cheapest_feasible; cbv zeta.
    rewrite <- Hfirst; apply find_ext_in; intros w Hw.
    unfold feasible.
    destruct (d <=? capacity w)%Z eqn:Ew; [simpl | reflexivity].
    apply Z.leb_le in Ew.
    unfold tied; rewrite (Hmin w Hw Ew), andb_true_r.
    destruct (fltb (cost_per_km v) (cost_per_km w)) eqn:Evw; simpl.
    + symmetry; apply not_true_is_false; intros Hc.
      unfold cheapest_among in Hc; rewrite forallb_forall in Hc.
      specialize (Hc v Hv); unfold feasible in Hc.
      apply Z.leb_le in Hd; rewrite Hd, Evw in Hc; discriminate.
    + symmetry; unfold cheapest_among; apply forallb_forall; intros x Hx.
      unfold feasible; destruct (d <=? capacity x)%Z eqn:Ex; [simpl | reflexivity].
      apply negb_true_iff; apply Z.leb_le in Ex.
      eapply not_fltb_trans; [exact Evw | apply Hmin; assumption].
  - symmetry; unfold cheapest_feasible; cbv zeta.
    destruct (find _ _) as [v |] eqn:E'; [| reflexivity].
    apply find_some in E'; destruct E' as (Hv & Hp).
    apply andb_prop in Hp; destruct Hp as (Hd & _).
    rewrite find_smallest_vehicle_none in E.
    apply E in Hv; apply Z.leb_le in Hd; lia.
Qed.
End VehicleSelector.

(** C7: for every demand and every catalog, [find_smallest_vehicle] returns
    the first vehicle, in catalog order, among those of minimal cost per km
    whose capacity covers the demand; it returns [None], without raising,
    exactly when no vehicle of the catalog covers the demand. *)
Theorem find_smallest_vehicle_correct {F : Type} `{Number F} `{!OrderLaws F}
    (vts : list (string * VehicleType F)) (d : Z) :
  find_smallest_vehicle vts d = cheapest_feasible vts d /\
  (find_smallest_vehicle vts d = None <->
   forall v, In v (map snd vts) -> (capacity v < d)%Z) /\
  (forall v, find_smallest_vehicle vts d = Some v ->
     In v (map snd vts) /\ (d <= capacity v)%Z /\
     (forall w, In w (map snd vts) -> (d <= capacity w)%Z ->
        fltb (cost_per_km w) (cost_per_km v) = false) /\
     find (fun w => feasible d w && tied cost_per_km v w) (map snd vts) = Some v).
Proof.
  split; [exact (find_smallest_vehicle_spec vts d) |].
  split; [exact (find_smallest_vehicle_none vts d) |].
  intros v; exact (find_smallest_vehicle_some vts d v).
Qed.

Lemma find_smallest_vehicle_correct_witness :
  OrderLaws Z /\
  find_smallest_vehicle vehicle_types_data 26 = Some type_b /\
  find_smallest_vehicle vehicle_types_data 26 =
    cheapest_feasible vehicle_types_data 26.
Proof.
  split; [exact Z_OrderLaws |].
  split; [reflexivity |].
  exact (proj1 (@find_smallest_vehicle_correct Z _ Z_OrderLaws
                  vehicle_types_data 26%Z)).
Defined.

(** C8: for the location list [depot :: customers], [calculate_cost_matrix]
    returns a square matrix with [1 + length customers] rows and columns;
    its cell [(i, j)] is [100 * sqrt ((lat_i - lat_j)^2 + (lon_i - lon_j)^2)]
    for the locations looked up for [i] and [j]; the diagonal is zero and
    the matrix is symmetric. *)
Theorem cost_matrix_square_metric {F : Type} `{Number F} `{!MetricLaws F}
    (depot : string * CustomerLocation F)
    (customers : list (string * CustomerLocation F)) :
  let locs := depot :: customers in
  exists cm,
    calculate_cost_matrix locs (map fst locs) = inr cm /\
    length cm = 1 + length customers /\
    (forall row, In row cm -> length row = 1 + length customers) /\
    forall i j, i <= length customers -> j <= length customers ->
      (exists li lj,
         location_at locs (map fst locs) i = inr li /\
         location_at locs (map fst locs) j = inr lj /\
         entry cm i j =
           Some (fmul fhundred
                   (fsqrt (fadd (fmul (fsub (latitude li) (latitude lj))
                                      (fsub (latitude li) (latitude lj)))
                                (fmul (fsub (longitude li) (longitude lj))
                                      (fsub (longitude li) (longitude lj))))))) /\
      entry cm i i = Some fzero /\
      entry cm i j = entry cm j i.
Proof.
  intros locs.
  destruct (calculate_cost_matrix_total locs) as (cm & Hcm).
  exists cm; split; [exact Hcm |].
  destruct (calculate_cost_matrix_shape locs cm Hcm) as (Hlen & Hrows).
  split; [exact Hlen |]; split; [exact Hrows |].
  intros i j Hi Hj.
  assert (Hi' : i < length locs) by (simpl; lia).
  assert (Hj' : j < length locs) by (simpl; lia).
  destruct (calculate_cost_matrix_entry locs cm i j Hcm Hi' Hj')
    as (li & lj & Hli & Hlj & Hij).
  destruct (calculate_cost_matrix_entry locs cm i i Hcm Hi' Hi')
    as (li1 & li2 & Hli1 & Hli2 & Hii).
  destruct (calculate_cost_matrix_entry locs cm j i Hcm Hj' Hi')
    as (lj' & li' & Hlj' & Hli' & Hji).
  split; [| split].
  - exists li, lj; auto.
  - rewrite Hii; f_equal.
    assert (li1 = li2) by congruence; subst li2.
    exact (calculate_distance_diag li1).
  - rewrite Hij, Hji; f_equal.
    assert (li' = li) by congruence; assert (lj' = lj) by congruence; subst.
    exact (calculate_distance_sym li lj).
Qed.

Lemma cost_matrix_square_metric_witness :
  MetricLaws Z /\
  exists cm,
    calculate_cost_matrix [loc "Depot" 0 0 0; loc "1" 3 4 5]
      (map fst [loc "Depot" 0 0 0; loc "1" 3 4 5]) = inr cm /\
    entry cm 0 1 = Some 500%Z /\ entry cm 1 0 = Some 500%Z /\
    entry cm 1 1 = Some 0%Z.
Proof.
  split; [exact Z_MetricLaws |].
  destruct (@cost_matrix_square_metric Z _ Z_MetricLaws
              (loc "Depot" 0 0 0) [loc "1" 3 4 5]) as (cm & Hcm & _).
  exists cm; split; [exact Hcm |].
  vm_compute in Hcm; injection Hcm as <-.
  repeat split; reflexivity.
Defined.

(** ** Route distance and the merge evaluator *)

Section Routes.
Context {F : Type} `{Number F}.
Variable self : CombinedSavingsAlgorithm F.
Variable n : nat.
Hypothesis Hsquare : square n (cost_matrix self).

Lemma cost_at_total (a b : nat) :
  a < n -> b < n -> exists c, cost_at self a b = inr c.
Proof.
  destruct Hsquare as (Hlen & Hrows); intros Ha Hb; unfold cost_at.
  destruct (index_lt (cost_matrix self) a) as (row & Hrow); [lia |].
  rewrite Hrow; simpl.
  apply index_lt.
  apply index_inr, nth_error_In in Hrow.
  rewrite Forall_forall in Hrows; rewrite (Hrows row Hrow); exact Hb.
Qed.

Lemma legs_distance_total (rt : list nat) (acc : F) :
  in_range n rt -> exists d, legs_distance self rt acc = inr d.
Proof.
  revert acc; induction rt as [| a rt IH]; intros acc Hr; simpl.
  - eexists; reflexivity.
  - destruct rt as [| b rt]; [eexists; reflexivity |].
    inversion Hr as [| ? ? Ha Hr']; subst.
    inversion Hr' as [| ? ? Hb _]; subst.
    destruct (cost_at_total a b Ha Hb) as (c & Hc); rewrite Hc; simpl.
    apply IH; exact Hr'.
Qed.

Lemma in_range_last (rt : list nat) :
  rt <> [] -> in_range n rt -> last rt 0 < n.
Proof.
  intros Hne Hr.
  destruct (exists_last Hne) as (rt' & x & ->).
  rewrite last_last.
  unfold in_range in Hr; rewrite Forall_app in Hr; destruct Hr as (_ & Hx).
  now inversion Hx.
Qed.

Lemma calculate_route_distance_total (rt : list nat) :
  rt <> [] -> in_range n rt ->
  exists d, calculate_route_distance self rt = inr d.
Proof.
  intros Hne Hr; unfold calculate_route_distance.
  destruct (legs_distance_total rt fzero Hr) as (d & Hd); rewrite Hd; simpl.
  pose proof (in_range_last rt Hne Hr) as Hlast.
  destruct rt as [| a rt]; [congruence |].
  inversion Hr as [| ? ? Ha _]; subst.
  assert (H0 : 0 < n) by lia.
  change (index (a :: rt) 0) with (@inr exn nat a); simpl bind at 1.
  destruct (cost_at_total 0 a H0 Ha) as (c1 & Hc1); rewrite Hc1; simpl bind at 1.
  unfold last_stop; simpl bind at 1; simpl in Hlast.
  destruct (cost_at_total _ 0 Hlast H0) as (c2 & Hc2); rewrite Hc2; simpl.
  eexists; reflexivity.
Qed.

Lemma merged_routes_perm (route1 route2 c : list nat) :
  In c (merged_routes route1 route2) -> Permutation c (route1 ++ route2).
Proof.
  unfold merged_routes; simpl.
  intros [<- | [<- | [<- | [<- | []]]]].
  - reflexivity.
  - apply Permutation_app_comm.
  - apply Permutation_app_tail; symmetry; apply Permutation_rev.
  - apply Permutation_app_head; symmetry; apply Permutation_rev.
Qed.

Lemma merged_routes_ok (route1 route2 c : list nat) :
  route1 <> [] -> in_range n route1 -> in_range n route2 ->
  In c (merged_routes route1 route2) -> c <> [] /\ in_range n c.
Proof.
  intros Hne H1 H2 Hc.
  pose proof (merged_routes_perm _ _ _ Hc) as Hp.
  split.
  - intros ->; apply Permutation_nil in Hp.
    apply app_eq_nil in Hp; tauto.
  - unfold in_range; eapply Permutation_Forall; [symmetry; exact Hp |].
    apply Forall_app; split; assumption.
Qed.

Lemma foldM_total {A S : Type} (f : S -> A -> M S) (l : list A) (s : S) :
  (forall s' a, In a l -> exists s'', f s' a = inr s'') ->
  exists s', foldM f l s = inr s'.
Proof.
  revert s; induction l as [| a l IH]; intros s Hf; simpl.
  - eexists; reflexivity.
  - destruct (Hf s a (or_introl eq_refl)) as (s1 & Hs1); rewrite Hs1; simpl.
    apply IH; intros; apply Hf; now right.
Qed.

(** The minimum search keeps its accumulator or replaces it by a candidate
    together with its distance. *)
Lemma combine_fold_in (l : list (list nat)) acc acc' :
  foldM (combine_step self) l acc = inr acc' ->
  acc' = acc \/
  exists d rt, In rt l /\ calculate_route_distance self rt = inr d /\
               acc' = (Some d, Some rt).
Proof.
  revert acc; induction l as [| x l IH]; intros acc E; simpl in E.
  - injection E as <-; now left.
  - apply bind_inr in E; destruct E as (acc1 & Hstep & E).
    unfold combine_step in Hstep.
    apply bind_inr in Hstep; destruct Hstep as (dx & Hdx & Hstep).
    destruct (IH _ E) as [-> | (d & rt & Hin & Hd & ->)].
    + destruct (below dx (fst acc)); injection Hstep as <-.
      * right; exists dx, x; simpl; auto.
      * now left.
    + right; exists d, rt; simpl; auto.
Qed.

Lemma combine_routes_inv (route1 route2 : list nat) b :
  combine_routes self route1 route2 = inr b ->
  exists best, b = Some best /\ In best (merged_routes route1 route2).
Proof.
  unfold combine_routes; intros E.
  apply bind_inr in E; destruct E as (r & Hr & E); injection E as <-.
  unfold merged_routes in Hr.
  change (foldM ?f (?x :: ?l) ?s) with (s' <- f s x ;; foldM f l s') in Hr.
  apply bind_inr in Hr; destruct Hr as (acc1 & Hstep & Hr).
  unfold combine_step in Hstep.
  apply bind_inr in Hstep; destruct Hstep as (dx & Hdx & Hstep).
  simpl in Hstep; injection Hstep as <-.
  destruct (combine_fold_in _ _ _ Hr) as [-> | (d & rt & Hin & _ & ->)]; simpl.
  - eexists; split; [reflexivity |]; unfold merged_routes; simpl; auto.
  - exists rt; split; [reflexivity |]; unfold merged_routes; simpl; auto.
Qed.

Lemma combine_routes_total (route1 route2 : list nat) :
  route1 <> [] -> in_range n route1 -> in_range n route2 ->
  exists best, combine_routes self route1 route2 = inr (Some best) /\
               In best (merged_routes route1 route2).
Proof.
  intros Hne H1 H2.
  assert (Hfold : exists r, foldM (combine_step self)
                              (merged_routes route1 route2) (None, None) = inr r).
  { apply foldM_total; intros acc c Hc.
    destruct (merged_routes_ok _ _ _ Hne H1 H2 Hc) as (Hcne & Hcr).
    unfold combine_step.
    destruct (calculate_route_distance_total c Hcne Hcr) as (d & Hd).
    rewrite Hd; simpl.
    destruct (below d (fst acc)); eexists; reflexivity. }
  destruct Hfold as (r & Hr).
  assert (E : combine_routes self route1 route2 = inr (snd r)).
  { unfold combine_routes; rewrite Hr; reflexivity. }
  destruct (combine_routes_inv _ _ _ E) as (best & Hb & Hin).
  exists best; rewrite E, Hb; auto.
Qed.
End Routes.

Section MinimumSearch.
Context {F : Type} `{Number F} `{!OrderLaws F}.
Variable self : CombinedSavingsAlgorithm F.

Lemma below_trans (d dx : F) (m : option F) :
  fltb d dx = true -> below dx m = true -> below d m = true.
Proof.
  destruct m as [m0 |]; simpl; [| reflexivity].
  intros; eapply fltb_trans; eauto.
Qed.

Lemma below_cotrans (d dx : F) (m : option F) :
  below d m = true -> below dx m = false -> fltb d dx = true.
Proof.
  destruct m as [m0 |]; simpl; [| discriminate].
  intros Hd Hdx; destruct (fltb_cotrans d dx m0 Hd); congruence.
Qed.

(** The search ends on the first candidate of minimal distance: it is
    strictly below every earlier candidate and no candidate is below it. *)
Lemma combine_fold_min (l : list (list nat)) acc acc' :
  foldM (combine_step self) l acc = inr acc' ->
  (acc' = acc /\
   forall c dc, In c l -> calculate_route_distance self c = inr dc ->
                below dc (fst acc) = false) \/
  exists k rt d,
    nth_error l k = Some rt /\ calculate_route_distance self rt = inr d /\
    acc' = (Some d, Some rt) /\ below d (fst acc) = true /\
    (forall m c dc, m < k -> nth_error l m = Some c ->
       calculate_route_distance self c = inr dc -> fltb d dc = true) /\
    (forall c dc, In c l -> calculate_route_distance self c = inr dc ->
       fltb dc d = false).
Proof.
  revert acc; induction l as [| x l IH]; intros acc E; simpl in E.
  - injection E as <-; left; split; [reflexivity | intros ? ? []].
  - apply bind_inr in E; destruct E as (acc1 & Hstep & E).
    unfold combine_step in Hstep.
    apply bind_inr in Hstep; destruct Hstep as (dx & Hdx & Hstep).
    destruct (below dx (fst acc)) eqn:Hb; injection Hstep as <-.
    + right.
      destruct (IH _ E) as [(-> & Hall) | (k & rt & d & Hk & Hd & -> & Hbd & Hearly & Hmin)];
        simpl in *.
      * exists 0, x, dx; repeat split; auto.
        -- intros m c dc Hm; lia.
        -- intros c dc [<- | Hc] Hdc; [| eauto].
           assert (dc = dx) by congruence; subst; exact (fltb_irrefl _).
      * exists (S k), rt, d; repeat split; auto.
        -- eapply below_trans; eauto.
        -- intros [| m] c dc Hm Hc Hdc; simpl in Hc.
           ++ injection Hc as <-; congruence.
           ++ eapply Hearly; eauto; lia.
        -- intros c dc [<- | Hc] Hdc; [| eauto].
           assert (dc = dx) by congruence; subst; now apply fltb_asym.
    + destruct (IH _ E) as [(-> & Hall) | (k & rt & d & Hk & Hd & -> & Hbd & Hearly & Hmin)].
      * left; split; [reflexivity |].
        intros c dc [<- | Hc] Hdc; [congruence | eauto].
      * right.
        assert (Hlt : fltb d dx = true) by (eapply below_cotrans; eauto).
        exists (S k), rt, d; repeat split; auto.
        -- intros [| m] c dc Hm Hc Hdc; simpl in Hc.
           ++ injection Hc as <-; congruence.
           ++ eapply Hearly; eauto; lia.
        -- intros c dc [<- | Hc] Hdc; [| eauto].
           assert (dc = dx) by congruence; subst; now apply fltb_asym.
Qed.
End MinimumSearch.

(** ** The route distance is the sum of the legs *)

Section LegSum.
Context {F : Type} `{Number F}.
Implicit Types (self : CombinedSavingsAlgorithm F).

Lemma cost_at_as_entry self (a b : nat) :
  cost_at self a b =
  match entry (cost_matrix self) a b with
  | Some c => inr c
  | None => inl IndexError
  end.
Proof.
  unfold cost_at, entry, index.
  destruct (nth_error (cost_matrix self) a) as [row |]; simpl; [| reflexivity].
  destruct (nth_error row b); reflexivity.
Qed.

(** The loop over consecutive stops adds up the cells of the legs. *)
Lemma legs_distance_sum self (rt : list nat) (acc : F) :
  legs_distance self rt acc =
  match legs_sum (cost_matrix self) (legs rt) acc with
  | Some d => inr d
  | None => inl IndexError
  end.
Proof.
  revert acc; induction rt as [| a rt IH]; intros acc; [reflexivity |].
  destruct rt as [| b rt]; [reflexivity |].
  change (legs_distance self (a :: b :: rt) acc)
    with (c <- cost_at self a b ;; legs_distance self (b :: rt) (fadd acc c)).
  change (legs (a :: b :: rt)) with ((a, b) :: legs (b :: rt)).
  rewrite cost_at_as_entry; simpl legs_sum.
  destruct (entry (cost_matrix self) a b) as [c |]; [| reflexivity].
  rewrite bind_inr_l; apply IH.
Qed.

Lemma calculate_route_distance_round_trip self (rt : list nat) (d : F) :
  calculate_route_distance self rt = inr d <->
  round_trip (cost_matrix self) rt = Some d.
Proof.
  unfold calculate_route_distance, round_trip.
  rewrite legs_distance_sum.
  destruct rt as [| a tl].
  - destruct (legs_sum (cost_matrix self) (legs []) fzero);
      simpl; split; discriminate.
  - destruct (legs_sum (cost_matrix self) (legs (a :: tl)) fzero) as [dl |];
      [| simpl; split; discriminate].
    rewrite bind_inr_l.
    change (index (a :: tl) 0) with (@inr exn nat a); rewrite bind_inr_l.
    rewrite cost_at_as_entry.
    destruct (entry (cost_matrix self) 0 a) as [c1 |];
      [| simpl; split; discriminate].
    rewrite bind_inr_l.
    change (last_stop (a :: tl)) with (@inr exn nat (last (a :: tl) 0)).
    rewrite bind_inr_l, cost_at_as_entry.
    destruct (entry (cost_matrix self) (last (a :: tl) 0) 0) as [c2 |];
      [| simpl; split; discriminate].
    rewrite bind_inr_l; unfold ret.
    split; intros E; injection E as <-; reflexivity.
Qed.
End LegSum.

(** C6: for two routes whose stops are indices of the cost matrix, the first
    of them non-empty, [combine_routes] goes through exactly the four
    candidates [route1 + route2], [route2 + route1], [reversed route1 +
    route2], [route1 + reversed route2], in this order, and returns one of
    them without raising.  The distance it compares is the round trip of
    each candidate: the sum of its legs in the cost matrix, depot legs
    included.  No candidate has a smaller round trip than the returned one,
    and every candidate before it in the list has a strictly greater one. *)
Theorem combine_routes_first_minimum {F : Type} `{Number F} `{!OrderLaws F}
    (self : CombinedSavingsAlgorithm F) (n : nat) (route1 route2 : list nat) :
  square n (cost_matrix self) ->
  route1 <> [] -> route2 <> [] ->
  in_range n route1 -> in_range n route2 ->
  let candidates :=
    [route1 ++ route2; route2 ++ route1; rev route1 ++ route2;
     route1 ++ rev route2] in
  exists k best d,
    combine_routes self route1 route2 = inr (Some best) /\
    nth_error candidates k = Some best /\
    calculate_route_distance self best = inr d /\
    round_trip (cost_matrix self) best = Some d /\
    forall m c, nth_error candidates m = Some c ->
      exists dc, calculate_route_distance self c = inr dc /\
                 round_trip (cost_matrix self) c = Some dc /\
                 fltb dc d = false /\
                 (m < k -> fltb d dc = true).
Proof.
  intros Hsq Hne1 Hne2 Hr1 Hr2 candidates.
  destruct (combine_routes_total self n Hsq route1 route2 Hne1 Hr1 Hr2)
    as (best & Hbest & _).
  pose proof Hbest as E; unfold combine_routes in E.
  apply bind_inr in E; destruct E as (r & Hr & E).
  destruct (combine_fold_min self _ _ _ Hr)
    as [(-> & _) | (k & rt & d & Hk & Hd & -> & _ & Hearly & Hmin)];
    [discriminate E |].
  simpl in E; injection E as ->.
  exists k, best, d.
  split; [exact Hbest |]; split; [exact Hk |]; split; [exact Hd |].
  split; [exact (proj1 (calculate_route_distance_round_trip self best d) Hd) |].
  intros m c Hc.
  assert (Hin : In c (merged_routes route1 route2))
    by (eapply nth_error_In; exact Hc).
  destruct (merged_routes_ok n route1 route2 c Hne1 Hr1 Hr2 Hin) as (Hcne & Hcr).
  destruct (calculate_route_distance_total self n Hsq c Hcne Hcr) as (dc & Hdc).
  exists dc.
  split; [exact Hdc |].
  split; [exact (proj1 (calculate_route_distance_round_trip self c dc) Hdc) |].
  split; [exact (Hmin c dc Hin Hdc) |].
  intros Hm; exact (Hearly m c dc Hm Hc Hdc).
Qed.

(** C10: the route returned by [combine_routes] is a permutation of
    [route1 ++ route2], and a route is returned whenever the stops are
    indices of the cost matrix and [route1] is non-empty. *)
Theorem combine_routes_permutation {F : Type} `{Number F}
    (self : CombinedSavingsAlgorithm F) (n : nat) (route1 route2 : list nat) :
  square n (cost_matrix self) ->
  route1 <> [] -> route2 <> [] ->
  in_range n route1 -> in_range n route2 ->
  exists best,
    combine_routes self route1 route2 = inr (Some best) /\
    Permutation best (route1 ++ route2).
Proof.
  intros Hsq Hne1 _ Hr1 Hr2.
  destruct (combine_routes_total self n Hsq route1 route2 Hne1 Hr1 Hr2)
    as (best & Hbest & Hin).
  exists best; split; [exact Hbest |].
  now apply merged_routes_perm.
Qed.

(** ** Dictionaries keyed by tuples of customer indices *)

Lemma tuple_eqb_eq (a b : list nat) : tuple_eqb a b = true <-> a = b.
Proof.
  revert b; induction a as [| x a IH]; intros [| y b]; simpl;
    try (split; [discriminate | discriminate]); [tauto |].
  rewrite andb_true_iff, Nat.eqb_eq, IH.
  split; [intros (-> & ->); reflexivity | intros E; injection E; auto].
Qed.

Lemma tuple_eqb_refl (a : list nat) : tuple_eqb a a = true.
Proof. now apply tuple_eqb_eq. Qed.

Lemma tuple_eqb_neq (a b : list nat) : tuple_eqb a b = false <-> a <> b.
Proof.
  rewrite <- tuple_eqb_eq; destruct (tuple_eqb a b); split; congruence.
Qed.

Section TupleDict.
Context {V : Type}.
Implicit Types (d : list (list nat * V)) (k : list nat).

Lemma dict_get_in d k v : dict_get tuple_eqb d k = inr v -> In (k, v) d.
Proof.
  induction d as [| [k' v'] d IH]; simpl; [discriminate |].
  destruct (tuple_eqb k' k) eqn:E.
  - apply tuple_eqb_eq in E; subst k'; intros E; injection E as ->; now left.
  - intros Hg; right; auto.
Qed.

Lemma dict_get_total d k :
  In k (map fst d) -> exists v, dict_get tuple_eqb d k = inr v.
Proof.
  induction d as [| [k' v'] d IH]; simpl; [tauto |].
  destruct (tuple_eqb k' k) eqn:E; [eexists; reflexivity |].
  intros [-> | Hin]; [rewrite tuple_eqb_refl in E; discriminate | auto].
Qed.

(** [del d[k]] removes the first entry with key [k]. *)
Lemma dict_del_inv d k d' :
  dict_del tuple_eqb d k = inr d' ->
  exists pre v post, d = pre ++ (k, v) :: post /\ d' = pre ++ post.
Proof.
  revert d'; induction d as [| [k' v'] d IH]; intros d'; simpl; [discriminate |].
  destruct (tuple_eqb k' k) eqn:E.
  - apply tuple_eqb_eq in E; subst k'; intros E; injection E as <-.
    exists [], v', d; auto.
  - intros Hd; apply bind_inr in Hd; destruct Hd as (d'' & Hd'' & Hd).
    injection Hd as <-.
    destruct (IH _ Hd'') as (pre & v & post & -> & ->).
    exists ((k', v') :: pre), v, post; auto.
Qed.

Lemma dict_del_total d k :
  In k (map fst d) -> exists d', dict_del tuple_eqb d k = inr d'.
Proof.
  induction d as [| [k' v'] d IH]; simpl; [tauto |].
  destruct (tuple_eqb k' k) eqn:E; [eexists; reflexivity |].
  intros [-> | Hin]; [rewrite tuple_eqb_refl in E; discriminate |].
  destruct (IH Hin) as (d' & ->); simpl; eexists; reflexivity.
Qed.

(** [d[k] = v] appends when [k] is not yet a key. *)
Lemma dict_set_fresh d k v :
  ~ In k (map fst d) -> dict_set tuple_eqb d k v = d ++ [(k, v)].
Proof.
  induction d as [| [k' v'] d IH]; simpl; [reflexivity |].
  intros Hn; destruct (tuple_eqb k' k) eqn:E.
  - apply tuple_eqb_eq in E; tauto.
  - rewrite IH; tauto.
Qed.
End TupleDict.

(** ** The loop body *)

Section MergeStep.
Context {F : Type} `{Number F}.
Implicit Types (self : CombinedSavingsAlgorithm F)
  (rs : list (list nat * RouteInfo F)).

Lemma attr_inr (o : option (VehicleType F)) v : attr o = inr v <-> o = Some v.
Proof.
  destruct o; simpl; split; intros E; try discriminate;
    injection E as ->; reflexivity.
Qed.

Lemma find_route_key_some rs i k :
  find_route_key rs i = Some k ->
  exists info, In (k, info) rs /\ In i (route info).
Proof.
  unfold find_route_key.
  destruct (find _ rs) as [[k' info] |] eqn:E; [| discriminate].
  simpl; intros Hk; injection Hk as ->.
  apply find_some in E; destruct E as (Hin & Hex); simpl in Hex.
  exists info; split; [exact Hin |].
  apply existsb_exists in Hex; destruct Hex as (x & Hx & Hix).
  apply Nat.eqb_eq in Hix; now subst.
Qed.

Lemma find_route_key_total rs i :
  In i (all_stops rs) -> exists k, find_route_key rs i = Some k.
Proof.
  unfold all_stops, find_route_key; intros Hin.
  apply in_concat in Hin; destruct Hin as (r & Hr & Hir).
  apply in_map_iff in Hr; destruct Hr as (kv & <- & Hkv).
  destruct (find _ rs) as [kv' |] eqn:E; [eexists; reflexivity |].
  apply (find_none _ _ E) in Hkv.
  assert (Hex : existsb (Nat.eqb i) (route (snd kv)) = true).
  { apply existsb_exists; exists i; split; [exact Hir | apply Nat.eqb_refl]. }
  congruence.
Qed.

(** The loop body either leaves the object as it is or commits a merge. *)
Lemma merge_step_inv self (s : F * nat * nat) self' :
  merge_step self s = inr self' ->
  self' = self \/ committed self (snd (fst s)) (snd s) self'.
Proof.
  unfold merge_step; intros E.
  destruct (find_route_key (routes self) (snd (fst s))) as [ki |] eqn:Hki;
    [| injection E as <-; now left].
  destruct (find_route_key (routes self) (snd s)) as [kj |] eqn:Hkj;
    [| injection E as <-; now left].
  destruct (truthy ki && truthy kj && negb (tuple_eqb ki kj)) eqn:Hc;
    [| injection E as <-; now left].
  apply andb_prop in Hc; destruct Hc as (_ & Hne).
  apply negb_true_iff, tuple_eqb_neq in Hne.
  apply bind_inr in E; destruct E as (info_i & Hinfo_i & E).
  apply bind_inr in E; destruct E as (info_j & Hinfo_j & E).
  apply bind_inr in E; destruct E as (td & Htd & E).
  destruct (find_smallest_vehicle (vehicle_types self) td) as [v |] eqn:Hv;
    [| injection E as <-; now left].
  apply bind_inr in E; destruct E as (b & Hb & E).
  apply bind_inr in E; destruct E as (di & Hdi & E).
  apply bind_inr in E; destruct E as (dj & Hdj & E).
  apply bind_inr in E; destruct E as (vi & Hvi & E).
  apply bind_inr in E; destruct E as (vj & Hvj & E).
  apply bind_inr in E; destruct E as (best & Hbest & E).
  destruct b as [b |]; [injection Hbest as -> | discriminate].
  apply bind_inr in E; destruct E as (dn & Hdn & E).
  apply attr_inr in Hvi, Hvj.
  destruct (fltb _ _) eqn:Hlt; [| injection E as <-; now left].
  apply bind_inr in E; destruct E as (rs1 & Hrs1 & E).
  apply bind_inr in E; destruct E as (rs2 & Hrs2 & E).
  injection E as <-.
  right; econstructor; eauto.
Qed.

(** When no vehicle covers the combined demand, or the pair lies in one
    route, the loop body returns the object unchanged. *)
Lemma merge_step_same_route self (s : F * nat * nat) k :
  find_route_key (routes self) (snd (fst s)) = Some k ->
  find_route_key (routes self) (snd s) = Some k ->
  merge_step self s = inr self.
Proof.
  unfold merge_step; intros -> ->.
  rewrite tuple_eqb_refl, andb_false_r; reflexivity.
Qed.

Lemma merge_step_infeasible self (s : F * nat * nat) ki kj info_i info_j td :
  find_route_key (routes self) (snd (fst s)) = Some ki ->
  find_route_key (routes self) (snd s) = Some kj ->
  dict_get tuple_eqb (routes self) ki = inr info_i ->
  dict_get tuple_eqb (routes self) kj = inr info_j ->
  total_demand_of self (route info_i ++ route info_j) = inr td ->
  find_smallest_vehicle (vehicle_types self) td = None ->
  merge_step self s = inr self.
Proof.
  unfold merge_step; intros -> -> Hi Hj Htd Hv.
  destruct (truthy ki && truthy kj && negb (tuple_eqb ki kj)); [| reflexivity].
  rewrite Hi, Hj; simpl; rewrite Htd; simpl; rewrite Hv; reflexivity.
Qed.
End MergeStep.

(** ** The RouteSet as a partition *)

Lemma NoDup_app_disjoint {A : Type} (l1 l2 : list A) (c : A) :
  NoDup (l1 ++ l2) -> In c l1 -> In c l2 -> False.
Proof.
  induction l1 as [| x l1 IH]; simpl; [tauto |].
  intros Hnd [-> | H1] H2; inversion Hnd as [| ? ? Hx Hnd']; subst.
  - apply Hx, in_or_app; now right.
  - eauto.
Qed.

Section Partition.
Context {F : Type} `{Number F}.
Implicit Types (self : CombinedSavingsAlgorithm F)
  (rs : list (list nat * RouteInfo F)).

Lemma all_stops_cons kv rs :
  all_stops (kv :: rs) = route (snd kv) ++ all_stops rs.
Proof. reflexivity. Qed.

Lemma all_stops_app rs rs' :
  all_stops (rs ++ rs') = all_stops rs ++ all_stops rs'.
Proof. unfold all_stops; rewrite map_app, concat_app; reflexivity. Qed.

Lemma all_stops_perm rs rs' :
  Permutation rs rs' -> Permutation (all_stops rs) (all_stops rs').
Proof.
  intros Hp; unfold all_stops.
  rewrite <- !flat_map_concat_map.
  now apply Permutation_flat_map.
Qed.

Lemma all_stops_in rs kv c :
  In kv rs -> In c (route (snd kv)) -> In c (all_stops rs).
Proof.
  intros Hkv Hc; unfold all_stops; apply in_concat.
  exists (route (snd kv)); split; [| exact Hc].
  apply in_map_iff; exists kv; auto.
Qed.

(** With pairwise disjoint routes a stop determines its entry. *)
Lemma stops_unique rs a b c :
  NoDup (all_stops rs) -> In a rs -> In b rs ->
  In c (route (snd a)) -> In c (route (snd b)) -> a = b.
Proof.
  induction rs as [| x rs IH]; simpl; [tauto |].
  rewrite all_stops_cons; intros Hnd Ha Hb Hca Hcb.
  destruct Ha as [-> | Ha], Hb as [-> | Hb]; [reflexivity | | |].
  - exfalso; eapply NoDup_app_disjoint; eauto using all_stops_in.
  - exfalso; eapply NoDup_app_disjoint; eauto using all_stops_in.
  - apply NoDup_app_remove_l in Hnd; eauto.
Qed.

Lemma partition_NoDup self : partition_ok self -> NoDup (all_stops (routes self)).
Proof.
  intros Hp; eapply Permutation_NoDup; [symmetry; exact Hp | apply seq_NoDup].
Qed.

(** Keys are unique: two entries under one key are the same entry. *)
Lemma keyed_unique rs k a b :
  keyed rs -> NoDup (all_stops rs) ->
  In (k, a) rs -> In (k, b) rs -> a = b.
Proof.
  intros Hk Hnd Ha Hb.
  unfold keyed in Hk; rewrite Forall_forall in Hk.
  destruct (Hk _ Ha) as (Hka & Hne); simpl in *.
  destruct (Hk _ Hb) as (Hkb & _); simpl in *.
  destruct k as [| c k]; [congruence |].
  assert (E : (c :: k, a) = (c :: k, b)).
  { apply (stops_unique rs _ _ c Hnd Ha Hb); simpl.
    - rewrite <- Hka; now left.
    - rewrite <- Hkb; now left. }
  now injection E.
Qed.

(** From the partition to the statement about single customers. *)
Lemma count_exactly_once rs c :
  count_occ Nat.eq_dec (all_stops rs) c = 1 -> exactly_once rs c.
Proof.
  induction rs as [| kv rs IH]; [discriminate |].
  rewrite all_stops_cons, count_occ_app; intros Hcount.
  destruct (count_occ Nat.eq_dec (route (snd kv)) c) as [| m] eqn:Ehere.
  - destruct (IH Hcount) as (k & kv0 & Hk & Hone & Huniq).
    exists (S k), kv0; split; [exact Hk |]; split; [exact Hone |].
    intros [| k'] kv' Hk' Hin; simpl in Hk'.
    + injection Hk' as <-.
      apply (count_occ_In Nat.eq_dec) in Hin; lia.
    + f_equal; eauto.
  - assert (m = 0) by lia; subst m.
    assert (Hrest : count_occ Nat.eq_dec (all_stops rs) c = 0) by lia.
    exists 0, kv; split; [reflexivity |]; split; [exact Ehere |].
    intros [| k'] kv' Hk' Hin; [reflexivity |]; simpl in Hk'.
    apply nth_error_In in Hk'.
    pose proof (all_stops_in rs kv' c Hk' Hin) as Hc.
    apply (count_occ_In Nat.eq_dec) in Hc; lia.
Qed.

Lemma partition_exactly_once self c :
  partition_ok self -> In c (customers self) -> exactly_once (routes self) c.
Proof.
  intros Hp Hc; apply count_exactly_once.
  unfold partition_ok in Hp.
  rewrite (Permutation_count_occ Nat.eq_dec) in Hp; rewrite Hp.
  pose proof (seq_NoDup (length (locations self) - 1) 1) as Hnd.
  rewrite (NoDup_count_occ Nat.eq_dec) in Hnd.
  specialize (Hnd c).
  apply (count_occ_In Nat.eq_dec) in Hc; unfold customers in *; lia.
Qed.
End Partition.

(** ** What a committed merge does to the RouteSet *)

Section Commit.
Context {F : Type} `{Number F}.
Implicit Types (self : CombinedSavingsAlgorithm F)
  (rs : list (list nat * RouteInfo F)).

Lemma keyed_in rs k info :
  keyed rs -> In (k, info) rs -> route info = k /\ k <> [].
Proof.
  unfold keyed; rewrite Forall_forall; intros Hk Hin.
  destruct (Hk _ Hin) as (E & Hne); simpl in *; split; congruence.
Qed.

Lemma commit_shape rs ki kj info_i info_j rs1 rs2 best (x : RouteInfo F) :
  keyed rs -> NoDup (all_stops rs) ->
  dict_get tuple_eqb rs ki = inr info_i ->
  dict_get tuple_eqb rs kj = inr info_j ->
  dict_del tuple_eqb rs ki = inr rs1 ->
  dict_del tuple_eqb rs1 kj = inr rs2 ->
  Permutation best (route info_i ++ route info_j) ->
  route info_i = ki /\ route info_j = kj /\ ki <> [] /\ kj <> [] /\
  Permutation rs ((ki, info_i) :: (kj, info_j) :: rs2) /\
  dict_set tuple_eqb rs2 best x = rs2 ++ [(best, x)].
Proof.
  intros Hk Hnd Hgi Hgj Hdi Hdj Hbest.
  apply dict_get_in in Hgi, Hgj.
  destruct (keyed_in _ _ _ Hk Hgi) as (Hri & Hnei).
  destruct (keyed_in _ _ _ Hk Hgj) as (Hrj & Hnej).
  destruct (dict_del_inv _ _ _ Hdi) as (pre & v0 & post & Hrs & Hrs1).
  assert (v0 = info_i).
  { apply (keyed_unique rs ki); auto.
    rewrite Hrs; apply in_elt. }
  subst v0.
  assert (Hp1 : Permutation rs ((ki, info_i) :: rs1)).
  { rewrite Hrs, Hrs1; symmetry; apply Permutation_middle. }
  destruct (dict_del_inv _ _ _ Hdj) as (pre' & w0 & post' & Hrs1' & Hrs2).
  assert (w0 = info_j).
  { apply (keyed_unique rs kj); auto.
    eapply Permutation_in; [symmetry; exact Hp1 |].
    right; rewrite Hrs1'; apply in_elt. }
  subst w0.
  assert (Hp : Permutation rs ((ki, info_i) :: (kj, info_j) :: rs2)).
  { rewrite Hp1; constructor.
    rewrite Hrs1', Hrs2; symmetry; apply Permutation_middle. }
  repeat (split; [assumption |]).
  apply dict_set_fresh; intros Hin.
  apply in_map_iff in Hin; destruct Hin as ((b & y) & Hb & Hy); simpl in Hb; subst b.
  assert (Hy' : In (best, y) rs).
  { eapply Permutation_in; [symmetry; exact Hp |]; right; right; exact Hy. }
  destruct (keyed_in _ _ _ Hk Hy') as (Hry & Hney).
  destruct best as [| c best]; [congruence |].
  pose proof (all_stops_perm _ _ Hp) as Hs.
  rewrite !all_stops_cons in Hs; simpl in Hs.
  rewrite app_assoc in Hs.
  apply (Permutation_NoDup Hs) in Hnd.
  apply (NoDup_app_disjoint _ _ c Hnd).
  - eapply Permutation_in; [exact Hbest | now left].
  - apply (all_stops_in rs2 (c :: best, y)); [exact Hy |].
    simpl; rewrite Hry; now left.
Qed.

(** The shape of a committed merge under the invariant. *)
Lemma committed_shape self i j self' :
  invariant self -> committed self i j self' ->
  exists info_i info_j rs2 best v,
    Permutation (routes self)
      ((route info_i, info_i) :: (route info_j, info_j) :: rs2) /\
    route info_i <> [] /\ route info_j <> [] /\
    Permutation best (route info_i ++ route info_j) /\
    self' = set_routes self (rs2 ++ [(best, mkRouteInfo best (Some v))]) /\
    (exists td, total_demand_of self (route info_i ++ route info_j) = inr td /\
                (td <= capacity v)%Z) /\
    (exists di dj dn vi vj,
       vehicle info_i = Some vi /\ vehicle info_j = Some vj /\
       calculate_route_distance self (route info_i) = inr di /\
       calculate_route_distance self (route info_j) = inr dj /\
       calculate_route_distance self best = inr dn /\
       fltb (fmul dn (cost_per_km v))
            (fadd (fmul di (cost_per_km vi)) (fmul dj (cost_per_km vj))) = true).
Proof.
  intros (Hstatic & Hk & Hpart) Hc; destruct Hc.
  assert (Hperm : Permutation best (route info_i ++ route info_j)).
  { destruct (combine_routes_inv self _ _ _ Hbest) as (b & Hb & Hin).
    injection Hb as <-; now apply merged_routes_perm. }
  destruct (commit_shape (routes self) _ _ _ _ _ _ best
              (mkRouteInfo best (Some combined_vehicle))
              Hk (partition_NoDup _ Hpart) Hinfo_i Hinfo_j Hdel_i Hdel_j Hperm)
    as (Hri & Hrj & Hnei & Hnej & Hp & Hset).
  subst route_i_key route_j_key.
  exists info_i, info_j, rs2, best, combined_vehicle.
  rewrite <- Hset.
  repeat (split; [assumption |]).
  split.
  - exists total_demand; split; [congruence |].
    unfold find_smallest_vehicle in Hvehicle.
    apply find_some in Hvehicle; destruct Hvehicle as (_ & Hle).
    now apply Z.leb_le.
  - exists di, dj, dn, vehicle_i, vehicle_j; repeat split; congruence.
Qed.
End Commit.

(** ** The loop body keeps the invariants *)

Section Invariants.
Context {F : Type} `{Number F}.
Implicit Types (self : CombinedSavingsAlgorithm F)
  (rs : list (list nat * RouteInfo F)).

Lemma foldM_invariant {A S : Type} (P : S -> Prop) (f : S -> A -> M S)
    (l : list A) (s s' : S) :
  (forall s a s', P s -> f s a = inr s' -> P s') ->
  P s -> foldM f l s = inr s' -> P s'.
Proof.
  intros Hstep; revert s; induction l as [| a l IH]; intros s Hs E; simpl in E.
  - now injection E as <-.
  - apply bind_inr in E; destruct E as (s1 & Hs1 & E); eauto.
Qed.

Lemma demand_fold_perm self (rt rt' : list nat) :
  Permutation rt rt' ->
  forall acc td,
    foldM (fun acc c =>
             loc <- location_at (locations self) (location_keys self) c ;;
             ret (acc + demand loc)%Z) rt acc = inr td ->
    foldM (fun acc c =>
             loc <- location_at (locations self) (location_keys self) c ;;
             ret (acc + demand loc)%Z) rt' acc = inr td.
Proof.
  induction 1 as [| x l l' Hp IH | x y l | l l' l'' Hp1 IH1 Hp2 IH2];
    intros acc td E; auto.
  - simpl in *; apply bind_inr in E; destruct E as (a1 & Ha1 & E).
    rewrite Ha1; simpl; auto.
  - simpl in *.
    apply bind_inr in E; destruct E as (a1 & Ha1 & E).
    apply bind_inr in E; destruct E as (a2 & Ha2 & E).
    apply bind_inr in Ha1; destruct Ha1 as (ly & Hly & Ha1); injection Ha1 as <-.
    apply bind_inr in Ha2; destruct Ha2 as (lx & Hlx & Ha2); injection Ha2 as <-.
    rewrite Hlx; simpl; rewrite Hly; simpl.
    replace (acc + demand lx + demand ly)%Z with (acc + demand ly + demand lx)%Z
      by lia.
    exact E.
Qed.

Lemma total_demand_perm self (rt rt' : list nat) td :
  Permutation rt rt' ->
  total_demand_of self rt = inr td -> total_demand_of self rt' = inr td.
Proof. intros Hp; apply demand_fold_perm; exact Hp. Qed.

Lemma total_demand_total self (rt : list nat) :
  location_keys self = map fst (locations self) ->
  in_range (length (locations self)) rt ->
  exists td, total_demand_of self rt = inr td.
Proof.
  intros Hkeys Hr; unfold total_demand_of.
  apply foldM_total; intros acc c Hc.
  unfold in_range in Hr; rewrite Forall_forall in Hr.
  destruct (location_at_total (locations self) c (Hr c Hc)) as (l & Hl).
  rewrite Hkeys, Hl; simpl; eexists; reflexivity.
Qed.

(** Under the partition every stop of every route is a customer index. *)
Lemma partition_in_range self k info :
  partition_ok self -> In (k, info) (routes self) ->
  in_range (length (locations self)) (route info).
Proof.
  intros Hp Hin; unfold in_range; apply Forall_forall; intros c Hc.
  assert (Hc' : In c (customers self)).
  { eapply Permutation_in; [exact Hp |].
    apply (all_stops_in _ (k, info)); assumption. }
  unfold customers in Hc'; apply in_seq in Hc'; lia.
Qed.

Lemma merge_step_invariant self (s : F * nat * nat) self' :
  invariant self -> merge_step self s = inr self' -> invariant self'.
Proof.
  intros Hinv E.
  destruct (merge_step_inv _ _ _ E) as [-> | Hc]; [exact Hinv |].
  destruct (committed_shape _ _ _ _ Hinv Hc)
    as (info_i & info_j & rs2 & best & v & Hp & Hnei & Hnej & Hbest & -> & _).
  destruct Hinv as (Hstatic & Hk & Hpart).
  split; [exact Hstatic |]; split.
  - unfold keyed in *; simpl.
    rewrite Hp in Hk.
    inversion Hk as [| ? ? _ Hk']; subst.
    inversion Hk' as [| ? ? _ Hk'']; subst.
    apply Forall_app; split; [exact Hk'' |].
    constructor; [| constructor]; simpl; split; [reflexivity |].
    intros ->; apply Permutation_nil in Hbest.
    apply app_eq_nil in Hbest; tauto.
  - unfold partition_ok in *; simpl.
    change (customers (set_routes self _)) with (customers self).
    transitivity (all_stops (routes self)); [| exact Hpart].
    rewrite (all_stops_perm _ _ Hp), all_stops_app.
    rewrite (all_stops_cons (route info_i, info_i)),
      (all_stops_cons (route info_j, info_j)),
      (all_stops_cons (best, mkRouteInfo best (Some v))).
    simpl; rewrite app_nil_r, Hbest, (app_assoc (route info_i)).
    apply Permutation_app_comm.
Qed.

End Invariants.

(** ** Initialisation *)

Section Init.
Context {F : Type} `{Number F}.
Variable locs : list (string * CustomerLocation F).
Variable vts : list (string * VehicleType F).

Lemma init_fold (l : list nat) (d rs : list (list nat * RouteInfo F)) :
  NoDup l ->
  (forall i, In i l -> ~ In [i + 1] (map fst d)) ->
  foldM (fun d i =>
           lc <- location_at locs (map fst locs) (i + 1) ;;
           ret (dict_set tuple_eqb d [i + 1]
                  (mkRouteInfo [i + 1] (find_smallest_vehicle vts (demand lc)))))
        l d = inr rs ->
  exists rs', rs = d ++ rs' /\ Forall2 (initial_entry locs vts) l rs'.
Proof.
  revert d; induction l as [| i l IH]; intros d Hnd Hfresh E; simpl in E.
  - injection E as <-; exists []; rewrite app_nil_r; split; [reflexivity | constructor].
  - apply bind_inr in E; destruct E as (d1 & Hd1 & E).
    apply bind_inr in Hd1; destruct Hd1 as (lc & Hlc & Hd1); injection Hd1 as <-.
    rewrite dict_set_fresh in E by (apply Hfresh; now left).
    inversion Hnd as [| ? ? Hi Hnd']; subst.
    apply IH in E; [| exact Hnd' |].
    + destruct E as (rs' & -> & HF).
      eexists; rewrite <- app_assoc; split; [reflexivity |].
      constructor; [exists lc; auto | exact HF].
    + intros i' Hi'; rewrite map_app, in_app_iff; simpl.
      intros [Hin | [E' | []]]; [eapply Hfresh; eauto; now right |].
      injection E' as E'; assert (i' = i) by lia; congruence.
Qed.

Lemma init_inv (self : CombinedSavingsAlgorithm F) :
  init locs vts = inr self ->
  locations self = locs /\ vehicle_types self = vts /\
  location_keys self = map fst locs /\
  calculate_cost_matrix locs (map fst locs) = inr (cost_matrix self) /\
  Forall2 (initial_entry locs vts) (seq 0 (length locs - 1)) (routes self).
Proof.
  unfold init; intros E.
  apply bind_inr in E; destruct E as (cm & Hcm & E).
  apply bind_inr in E; destruct E as (rs & Hrs & E).
  injection E as <-; simpl.
  apply init_fold in Hrs; [| apply seq_NoDup | intros ? _ []].
  destruct Hrs as (rs' & -> & HF); auto.
Qed.

Lemma init_total : exists self, init locs vts = inr self.
Proof.
  unfold init.
  destruct (calculate_cost_matrix_total locs) as (cm & ->); simpl.
  match goal with
  | |- exists _, bind ?m _ = _ => assert (Hm : exists rs, m = inr rs)
  end.
  { apply foldM_total; intros d i Hi; apply in_seq in Hi.
    destruct (location_at_total locs (i + 1)) as (lc & ->); [lia |].
    simpl; eexists; reflexivity. }
  destruct Hm as (rs & ->); simpl; eexists; reflexivity.
Qed.

Lemma initial_stops (l : list nat) (rs : list (list nat * RouteInfo F)) :
  Forall2 (initial_entry locs vts) l rs -> all_stops rs = map (fun i => i + 1) l.
Proof.
  induction 1 as [| i kv l rs (lc & _ & ->) _ IH]; [reflexivity |].
  rewrite all_stops_cons; simpl; now f_equal.
Qed.

Lemma init_invariant (self : CombinedSavingsAlgorithm F) :
  init locs vts = inr self -> invariant self.
Proof.
  intros E; destruct (init_inv self E) as (Hl & _ & Hk & Hcm & HF).
  repeat split.
  - now rewrite Hl.
  - rewrite Hl; apply (calculate_cost_matrix_shape locs _ Hcm).
  - rewrite Hl; apply Forall_forall.
    apply (calculate_cost_matrix_shape locs _ Hcm).
  - unfold keyed; apply Forall_forall; intros kv Hkv.
    apply In_nth_error in Hkv; destruct Hkv as (k & Hkv).
    destruct (Forall2_nth_error_l (Forall2_flip HF) Hkv) as (i & _ & lc & _ & ->).
    simpl; split; [reflexivity | discriminate].
  - unfold partition_ok, customers.
    rewrite (initial_stops _ _ HF), Hl, <- seq_shift.
    erewrite map_ext; [reflexivity |].
    intros; simpl; lia.
Qed.

End Init.

(** ** The loop body does not raise *)

Section NoError.
Context {F : Type} `{Number F}.
Implicit Types (self : CombinedSavingsAlgorithm F).


Lemma invariant_route_ok self k info :
  invariant self -> In (k, info) (routes self) ->
  route info <> [] /\ in_range (length (locations self)) (route info).
Proof.
  intros (_ & Hk & Hp) Hin; split.
  - destruct (keyed_in _ _ _ Hk Hin); congruence.
  - eapply partition_in_range; eauto.
Qed.

End NoError.

(** ** The savings list *)

Lemma foldM_snoc {A B C : Type} (e : A -> M B) (h : A -> B -> C)
    (l : list A) (acc r : list C) :
  foldM (fun acc a => x <- e a ;; ret (acc ++ [h a x])) l acc = inr r ->
  exists items,
    r = acc ++ items /\
    Forall2 (fun a c => exists x, e a = inr x /\ c = h a x) l items.
Proof.
  revert acc; induction l as [| a l IH]; intros acc E; simpl in E.
  - injection E as <-; exists []; rewrite app_nil_r; auto.
  - apply bind_inr in E; destruct E as (acc1 & Hacc1 & E).
    apply bind_inr in Hacc1; destruct Hacc1 as (x & Hx & Hacc1).
    injection Hacc1 as <-.
    destruct (IH _ E) as (items & -> & HF).
    exists (h a x :: items); rewrite <- app_assoc; split; [reflexivity |].
    constructor; eauto.
Qed.

Lemma foldM_concat {A C : Type} (Q : A -> list C -> Prop)
    (f : list C -> A -> M (list C)) (l : list A) (acc r : list C) :
  (forall acc a r, f acc a = inr r -> exists items, r = acc ++ items /\ Q a items) ->
  foldM f l acc = inr r ->
  exists itemss, r = acc ++ concat itemss /\ Forall2 Q l itemss.
Proof.
  intros Hf; revert acc; induction l as [| a l IH]; intros acc E; simpl in E.
  - injection E as <-; exists []; simpl; rewrite app_nil_r; auto.
  - apply bind_inr in E; destruct E as (acc1 & Hacc1 & E).
    destruct (Hf _ _ _ Hacc1) as (items & -> & HQ).
    destruct (IH _ E) as (itemss & -> & HF).
    exists (items :: itemss); simpl; rewrite <- app_assoc; auto.
Qed.

Lemma seq_shift_map {B : Type} (g : nat -> B) (start len : nat) :
  map (fun j => g (j + 1)) (seq start len) = map g (seq (start + 1) len).
Proof.
  replace (start + 1) with (S start) by lia.
  rewrite <- seq_shift, map_map.
  apply map_ext; intros j; f_equal; lia.
Qed.

Section Savings.
Context {F : Type} `{Number F}.
Implicit Types (self : CombinedSavingsAlgorithm F).

Lemma cost_at_entry self (a b : nat) (c : F) :
  cost_at self a b = inr c <-> entry (cost_matrix self) a b = Some c.
Proof.
  unfold cost_at, entry, index.
  destruct (nth_error (cost_matrix self) a) as [row |]; simpl.
  - destruct (nth_error row b); simpl; split; intros E;
      try discriminate; injection E as ->; reflexivity.
  - split; discriminate.
Qed.

Lemma compute_savings_inv self (savings : list (F * nat * nat)) :
  compute_savings self = inr savings ->
  exists itemss,
    savings = concat itemss /\
    Forall2 (savings_row self (length (locations self) - 1))
            (seq 0 (length (locations self) - 1)) itemss.
Proof.
  unfold compute_savings; intros E.
  eapply foldM_concat in E.
  - destruct E as (itemss & -> & HF); exists itemss; split; [reflexivity | exact HF].
  - clear E; intros acc i r E.
    apply foldM_snoc in E; destruct E as (items & -> & HF).
    exists items; split; [reflexivity |].
    unfold savings_row.
    eapply Forall2_impl; [| exact HF].
    intros j x (v & Hv & ->); simpl.
    apply bind_inr in Hv; destruct Hv as (ca & Hca & Hv).
    apply bind_inr in Hv; destruct Hv as (cb & Hcb & Hv).
    apply bind_inr in Hv; destruct Hv as (cab & Hcab & Hv).
    injection Hv as <-.
    apply cost_at_entry in Hca, Hcb, Hcab.
    repeat split; exists ca, cb, cab; auto.
Qed.

Lemma savings_row_pairs self (n i : nat) (items : list (F * nat * nat)) :
  savings_row self n i items ->
  map (fun x => (snd (fst x), snd x)) items =
  map (fun b => (i + 1, b)) (seq (i + 1 + 1) (n - (i + 1))).
Proof.
  unfold savings_row; rewrite <- (seq_shift_map (fun b => (i + 1, b))).
  generalize (seq (i + 1) (n - (i + 1))).
  induction 1 as [| j x l items (_ & Hi & Hj) _ IH]; simpl; [reflexivity |].
  rewrite Hi, Hj, IH; reflexivity.
Qed.

Lemma savings_rows_pairs self (n : nat) (l : list nat)
    (itemss : list (list (F * nat * nat))) :
  Forall2 (savings_row self n) l itemss ->
  map (fun x => (snd (fst x), snd x)) (concat itemss) =
  flat_map (fun a => map (fun b => (a, b)) (seq (a + 1) (n - a)))
           (map (fun i => i + 1) l).
Proof.
  induction 1 as [| i items l itemss Hrow _ IH]; simpl; [reflexivity |].
  rewrite map_app, IH, (savings_row_pairs _ _ _ _ Hrow); reflexivity.
Qed.

Lemma compute_savings_pairs self (savings : list (F * nat * nat)) :
  compute_savings self = inr savings ->
  map (fun x => (snd (fst x), snd x)) savings =
  customer_pairs (length (locations self) - 1).
Proof.
  intros E; destruct (compute_savings_inv _ _ E) as (itemss & -> & HF).
  rewrite (savings_rows_pairs _ _ _ _ HF); unfold customer_pairs.
  rewrite <- seq_shift; f_equal.
  apply map_ext; intros; lia.
Qed.

Lemma compute_savings_values self (savings : list (F * nat * nat)) :
  compute_savings self = inr savings ->
  Forall (fun x => saving_of (cost_matrix self) (snd (fst x)) (snd x)
                             (fst (fst x))) savings.
Proof.
  intros E; destruct (compute_savings_inv _ _ E) as (itemss & -> & HF).
  clear E; apply Forall_concat.
  induction HF as [| i items l itemss Hrow _ IH]; [constructor |].
  constructor; [| exact IH].
  unfold savings_row in Hrow.
  generalize dependent (seq (i + 1) (length (locations self) - 1 - (i + 1))).
  intros l' Hrow; induction Hrow as [| j x l' items (Hs & Hi & Hj) _ IH'];
    [constructor |].
  constructor; [| exact IH'].
  now rewrite Hi, Hj.
Qed.

Lemma compute_savings_total self :
  square (length (locations self)) (cost_matrix self) ->
  exists savings, compute_savings self = inr savings.
Proof.
  intros Hsq; unfold compute_savings.
  apply foldM_total; intros acc i Hi; apply in_seq in Hi.
  apply foldM_total; intros acc' j Hj; apply in_seq in Hj.
  destruct (cost_at_total self _ Hsq 0 (i + 1)) as (a & ->); [lia | lia |].
  destruct (cost_at_total self _ Hsq 0 (j + 1)) as (b & ->); [lia | lia |].
  destruct (cost_at_total self _ Hsq (i + 1) (j + 1)) as (c & ->); [lia | lia |].
  simpl; eexists; reflexivity.
Qed.
End Savings.

Lemma NoDup_map_injective {A B : Type} (g : A -> B) (l : list A) :
  (forall x y, g x = g y -> x = y) -> NoDup l -> NoDup (map g l).
Proof.
  intros Hg; induction 1 as [| x l Hx Hnd IH]; simpl; constructor; [| exact IH].
  intros Hin; apply in_map_iff in Hin; destruct Hin as (y & E & Hy).
  apply Hg in E; congruence.
Qed.

(** The enumeration holds every pair [a < b] of customers exactly once. *)
Lemma customer_pairs_in (n a b : nat) :
  In (a, b) (customer_pairs n) <-> 1 <= a /\ a < b /\ b <= n.
Proof.
  unfold customer_pairs; rewrite in_flat_map; split.
  - intros (a' & Ha' & Hin); apply in_seq in Ha'.
    apply in_map_iff in Hin; destruct Hin as (b' & E & Hb').
    injection E as -> ->; apply in_seq in Hb'; lia.
  - intros (Ha & Hab & Hb).
    exists a; split; [apply in_seq; lia |].
    apply in_map_iff; exists b; split; [reflexivity | apply in_seq; lia].
Qed.

Lemma customer_pairs_NoDup (n : nat) : NoDup (customer_pairs n).
Proof.
  unfold customer_pairs.
  assert (Hgen : forall l, NoDup l ->
            NoDup (flat_map (fun a => map (fun b => (a, b)) (seq (a + 1) (n - a))) l)).
  { induction l as [| a l IH]; intros Hnd; simpl; [constructor |].
    inversion Hnd as [| ? ? Ha Hnd']; subst.
    apply NoDup_app; [| auto |].
    - apply NoDup_map_injective; [| apply seq_NoDup].
      intros x y E; now injection E.
    - intros [a' b'] Hin1 Hin2.
      apply in_map_iff in Hin1; destruct Hin1 as (? & E & _); injection E as <- _.
      apply in_flat_map in Hin2; destruct Hin2 as (a2 & Ha2 & Hin2).
      apply in_map_iff in Hin2; destruct Hin2 as (? & E & _); injection E as <- _.
      contradiction. }
  apply Hgen, seq_NoDup.
Qed.

(** ** The merge loop *)


Section Loop.
Context {F : Type} `{Number F}.
Implicit Types (self : CombinedSavingsAlgorithm F).

Lemma merge_step_static self (s : F * nat * nat) self' :
  merge_step self s = inr self' ->
  locations self' = locations self /\
  vehicle_types self' = vehicle_types self /\
  location_keys self' = location_keys self /\
  cost_matrix self' = cost_matrix self.
Proof.
  intros E; destruct (merge_step_inv _ _ _ E) as [-> | Hc]; [auto |].
  destruct Hc; subst self'; auto.
Qed.

Lemma merge_loop_invariant self (steps : list (F * nat * nat)) self' :
  invariant self -> foldM merge_step steps self = inr self' ->
  invariant self' /\ customers self' = customers self.
Proof.
  intros Hinv E.
  apply (foldM_invariant
           (fun x => invariant x /\ customers x = customers self)
           merge_step steps self self'); auto.
  intros x a x' (Hx & Hcx) Hstep; split.
  - eapply merge_step_invariant; eauto.
  - rewrite <- Hcx; unfold customers.
    destruct (merge_step_static _ _ _ Hstep) as (-> & _); reflexivity.
Qed.



(** Under the invariant the lookup of a customer finds the key of the one
    route that holds it. *)
Lemma find_route_key_invariant self k info i :
  invariant self -> In (k, info) (routes self) -> In i (route info) ->
  find_route_key (routes self) i = Some k /\
  dict_get tuple_eqb (routes self) k = inr info.
Proof.
  intros (_ & Hk & Hp) Hin Hi.
  pose proof (partition_NoDup _ Hp) as Hnd.
  destruct (find_route_key_total (routes self) i) as (k' & Hk').
  { eapply all_stops_in; eauto. }
  destruct (find_route_key_some _ _ _ Hk') as (x & Hx & Hix).
  assert (E : (k', x) = (k, info))
    by (eapply (stops_unique (routes self) _ _ i); eauto).
  injection E as -> ->.
  split; [exact Hk' |].
  destruct (dict_get_total (routes self) k) as (y & Hy).
  { change k with (fst (k, info)); now apply in_map. }
  rewrite Hy; f_equal.
  eapply keyed_unique; eauto using dict_get_in.
Qed.

(** A pair whose routes cannot be served together by any vehicle is skipped:
    the loop body returns the object as it is. *)
Lemma merge_step_skip self (sv : F) (i j : nat) ki kj info_i info_j td :
  invariant self ->
  In (ki, info_i) (routes self) -> In (kj, info_j) (routes self) ->
  In i (route info_i) -> In j (route info_j) ->
  total_demand_of self (route info_i ++ route info_j) = inr td ->
  (forall v, In v (map snd (vehicle_types self)) -> (capacity v < td)%Z) ->
  merge_step self (sv, i, j) = inr self.
Proof.
  intros Hinv Hini Hinj Hi Hj Htd Hcap.
  destruct (find_route_key_invariant _ _ _ _ Hinv Hini Hi) as (Hki & Hgi).
  destruct (find_route_key_invariant _ _ _ _ Hinv Hinj Hj) as (Hkj & Hgj).
  eapply merge_step_infeasible; eauto.
  now apply find_smallest_vehicle_none.
Qed.
End Loop.

(** C1: [__init__] returns an object whose routes partition the customers
    [1 .. n], and so does every object reached from it by loop iterations of
    [optimize_routes], whatever the pairs processed: the stops of all routes
    together are the customer indices, each exactly once, and every customer
    is a stop of exactly one route. *)
Theorem partition_invariant {F : Type} `{Number F}
    (locs : list (string * CustomerLocation F))
    (vts : list (string * VehicleType F)) :
  exists self,
    init locs vts = inr self /\
    customers self = seq 1 (length locs - 1) /\
    partition_ok self /\
    (forall c, In c (customers self) -> exactly_once (routes self) c) /\
    forall (steps : list (F * nat * nat)) self',
      foldM merge_step steps self = inr self' ->
      customers self' = customers self /\
      Permutation (all_stops (routes self')) (customers self') /\
      forall c, In c (customers self') -> exactly_once (routes self') c.
Proof.
  destruct (init_total locs vts) as (self & Hself).
  pose proof (init_invariant locs vts self Hself) as Hinv.
  exists self; split; [exact Hself |].
  destruct (init_inv locs vts self Hself) as (Hl & _).
  split; [unfold customers; now rewrite Hl |].
  pose proof Hinv as (_ & _ & Hp).
  split; [exact Hp |].
  split; [intros c Hc; now apply partition_exactly_once |].
  intros steps self' E.
  destruct (merge_loop_invariant _ _ _ Hinv E) as ((_ & _ & Hp') & Hc').
  split; [exact Hc' |]; split; [exact Hp' |].
  intros c Hc; now apply partition_exactly_once.
Qed.


(** C9: under the loop invariant, a pair [(i, j)] whose routes have a
    combined demand above every capacity is skipped: the loop body returns,
    without raising, the object unchanged, so both routes stay as they were
    with their vehicles.  In particular, with exactly two customers whose
    combined demand exceeds every capacity, [optimize_routes] returns the
    initial object, whose routes are the singletons [[1]] and [[2]]. *)
Theorem infeasible_merge_skipped {F : Type} `{Number F} :
  (forall (self : CombinedSavingsAlgorithm F) (sv : F) (i j : nat)
          ki kj info_i info_j td,
     invariant self ->
     In (ki, info_i) (routes self) -> In (kj, info_j) (routes self) ->
     In i (route info_i) -> In j (route info_j) ->
     total_demand_of self (route info_i ++ route info_j) = inr td ->
     (forall v, In v (map snd (vehicle_types self)) -> (capacity v < td)%Z) ->
     merge_step self (sv, i, j) = inr self) /\
  (forall (depot c1 c2 : string * CustomerLocation F)
          (vts : list (string * VehicleType F)),
     NoDup (map fst [depot; c1; c2]) ->
     (forall v, In v (map snd vts) ->
        (capacity v < demand (snd c1) + demand (snd c2))%Z) ->
     exists self,
       init [depot; c1; c2] vts = inr self /\
       optimize_routes self = inr self /\
       map (fun kv => route (snd kv)) (routes self) = [[1]; [2]]).
Proof.
  split.
  { intros self sv i j ki kj info_i info_j td Hinv Hini Hinj Hi Hj Htd Hcap.
    exact (merge_step_skip self sv i j ki kj info_i info_j td
             Hinv Hini Hinj Hi Hj Htd Hcap). }
  intros depot c1 c2 vts Hnd Hcap.
  destruct (init_total [depot; c1; c2] vts) as (self & Hself).
  pose proof (init_invariant _ vts self Hself) as Hinv.
  destruct (init_inv _ vts self Hself) as (Hl & Hv & Hkeys & _ & HF).
  exists self; split; [exact Hself |].
  pose proof (location_at_nth [depot; c1; c2] 1 (snd c1) Hnd eq_refl) as H1.
  pose proof (location_at_nth [depot; c1; c2] 2 (snd c2) Hnd eq_refl) as H2.
  assert (Hroutes : routes self =
            [([1], mkRouteInfo [1] (find_smallest_vehicle vts (demand (snd c1))));
             ([2], mkRouteInfo [2] (find_smallest_vehicle vts (demand (snd c2))))]).
  { simpl in HF.
    inversion HF as [| ? e1 ? rest1 (lc1 & Hlc1 & He1) HF1]; subst e1.
    inversion HF1 as [| ? e2 ? rest2 (lc2 & Hlc2 & He2) HF2]; subst e2.
    inversion HF2.
    change (0 + 1) with 1 in *; change (1 + 1) with 2 in *.
    rewrite H1 in Hlc1; rewrite H2 in Hlc2.
    injection Hlc1 as <-; injection Hlc2 as <-; reflexivity. }
  split; [| rewrite Hroutes; reflexivity].
  unfold optimize_routes.
  pose proof Hinv as ((_ & Hsq) & _).
  destruct (compute_savings_total self Hsq) as (savings & Hsav).
  pose proof (compute_savings_pairs self savings Hsav) as Hpairs.
  rewrite Hl in Hpairs; simpl in Hpairs.
  destruct savings as [| [[sv a] b] [| ? ?]]; try discriminate Hpairs.
  simpl in Hpairs; injection Hpairs as -> ->.
  rewrite Hsav; simpl.
  rewrite (merge_step_skip self sv 1 2 [1] [2]
             (mkRouteInfo [1] (find_smallest_vehicle vts (demand (snd c1))))
             (mkRouteInfo [2] (find_smallest_vehicle vts (demand (snd c2))))
             (0 + demand (snd c1) + demand (snd c2))%Z); try reflexivity;
    try exact Hinv.
  - rewrite Hroutes; simpl; auto.
  - rewrite Hroutes; simpl; auto.
  - simpl; auto.
  - simpl; auto.
  - unfold total_demand_of; simpl foldM.
    rewrite Hl, Hkeys, H1, bind_inr_l, bind_inr_l, H2; reflexivity.
  - rewrite Hv; intros v Hin; specialize (Hcap v Hin); lia.
Qed.

(** C5: [optimize_routes] computes the savings list once, from the cost
    matrix that [__init__] built: its pairs are the pairs [a < b] of the
    customers [1 .. n], each exactly once, in the order of the nested
    enumeration, each with the value [cost(0,a) + cost(0,b) - cost(a,b)].
    The loop then runs over this list sorted by descending value, pairs of
    equal value staying in enumeration order, and no loop iteration changes
    the cost matrix. *)
Theorem savings_order {F : Type} `{Number F} `{!OrderLaws F}
    (locs : list (string * CustomerLocation F))
    (vts : list (string * VehicleType F)) :
  let n := length locs - 1 in
  let value := fun x : F * nat * nat => fst (fst x) in
  exists self savings,
    init locs vts = inr self /\
    compute_savings self = inr savings /\
    map (fun x => (snd (fst x), snd x)) savings = customer_pairs n /\
    (forall a b, In (a, b) (customer_pairs n) <-> 1 <= a /\ a < b /\ b <= n) /\
    NoDup (customer_pairs n) /\
    Forall (fun x => saving_of (cost_matrix self) (snd (fst x)) (snd x)
                               (value x)) savings /\
    optimize_routes self =
      foldM merge_step (sort_reverse value savings) self /\
    Permutation (sort_reverse value savings) savings /\
    descending value (sort_reverse value savings) /\
    (forall z, filter (tied value z) (sort_reverse value savings) =
               filter (tied value z) savings) /\
    (forall x s x', merge_step x s = inr x' -> cost_matrix x' = cost_matrix x).
Proof.
  intros n value.
  destruct (init_total locs vts) as (self & Hself).
  pose proof (init_invariant locs vts self Hself) as ((_ & Hsq) & _).
  destruct (init_inv locs vts self Hself) as (Hl & _).
  destruct (compute_savings_total self Hsq) as (savings & Hsav).
  exists self, savings.
  split; [exact Hself |]; split; [exact Hsav |].
  split; [subst n; rewrite <- Hl; now apply compute_savings_pairs |].
  split; [exact (customer_pairs_in n) |].
  split; [exact (customer_pairs_NoDup n) |].
  split; [now apply compute_savings_values |].
  split; [unfold optimize_routes; rewrite Hsav; reflexivity |].
  split; [exact (sort_reverse_perm value savings) |].
  split; [exact (sort_reverse_descending value savings) |].
  split; [intros z; exact (sort_reverse_stable value z savings) |].
  intros x s x' E; now apply (merge_step_static x s x').
Qed.

(** ** Total cost *)

Section TotalCost.
Context {F : Type} `{Number F}.
Implicit Types (self : CombinedSavingsAlgorithm F)
  (rs : list (list nat * RouteInfo F)).

Lemma print_fold_total self rs (totals : F * F) cs :
  mapM (fun kv => route_cost self (snd kv)) rs = inr cs ->
  exists td,
    foldM (fun totals route_info =>
             route_distance <- calculate_route_distance self
                                 (route (snd route_info)) ;;
             v <- attr (vehicle (snd route_info)) ;;
             ret (fadd (fst totals) route_distance,
                  fadd (snd totals) (fmul route_distance (cost_per_km v))))
          rs totals = inr (td, fold_left fadd cs (snd totals)).
Proof.
  revert totals cs; induction rs as [| kv rs IH]; intros totals cs E; simpl in E.
  - injection E as <-; exists (fst totals); destruct totals; reflexivity.
  - apply bind_inr in E; destruct E as (c & Hc & E).
    apply bind_inr in E; destruct E as (cs0 & Hcs0 & E); injection E as <-.
    unfold route_cost in Hc.
    apply bind_inr in Hc; destruct Hc as (d & Hd & Hc).
    apply bind_inr in Hc; destruct Hc as (v & Hv & Hc); injection Hc as <-.
    simpl foldM; rewrite Hd, bind_inr_l, Hv, bind_inr_l.
    unfold ret at 1; rewrite bind_inr_l.
    destruct (IH (fadd (fst totals) d,
                  fadd (snd totals) (fmul d (cost_per_km v))) _ Hcs0)
      as (td & ->).
    exists td; reflexivity.
Qed.
End TotalCost.

Section MergeCost.
Context {F : Type} `{Number F}.
Implicit Types (self : CombinedSavingsAlgorithm F)
  (rs : list (list nat * RouteInfo F)).

Lemma route_cost_inr self (info : RouteInfo F) d v :
  calculate_route_distance self (route info) = inr d ->
  vehicle info = Some v ->
  route_cost self info = inr (fmul d (cost_per_km v)).
Proof. unfold route_cost; intros -> ->; reflexivity. Qed.

Lemma route_costs_total self :
  invariant self ->
  (forall k info, In (k, info) (routes self) -> exists v, vehicle info = Some v) ->
  exists cs, mapM (fun kv => route_cost self (snd kv)) (routes self) = inr cs.
Proof.
  intros Hinv Hveh; pose proof Hinv as ((_ & Hsq) & _).
  apply mapM_total; intros [k info] Hin; simpl.
  destruct (invariant_route_ok _ _ _ Hinv Hin) as (Hne & Hr).
  destruct (calculate_route_distance_total self _ Hsq _ Hne Hr) as (d & Hd).
  destruct (Hveh _ _ Hin) as (v & Hv).
  rewrite (route_cost_inr self info d v Hd Hv); eexists; reflexivity.
Qed.

End MergeCost.


(** ** Concrete runs *)

Lemma sample_init :
  init sample_locations vehicle_types_data = inr sample_algorithm.
Proof. vm_compute; reflexivity. Qed.

Lemma sample_invariant : invariant sample_algorithm.
Proof. exact (init_invariant _ _ _ sample_init). Qed.


Lemma sample_square : square 4 (cost_matrix sample_algorithm).
Proof. split; [reflexivity | repeat constructor]. Qed.

Lemma partition_invariant_witness :
  exists self self',
    init sample_locations vehicle_types_data = inr self /\
    foldM merge_step [(900%Z, 1, 2)] self = inr self' /\
    Permutation (all_stops (routes self')) [1; 2; 3].
Proof.
  destruct (partition_invariant sample_locations vehicle_types_data)
    as (self & Hinit & Hc & _ & _ & Hsteps).
  assert (E : exists self', foldM merge_step [(900%Z, 1, 2)] self = inr self').
  { rewrite sample_init in Hinit; injection Hinit as <-.
    vm_compute; eexists; reflexivity. }
  destruct E as (self' & E).
  exists self, self'; split; [exact Hinit |]; split; [exact E |].
  destruct (Hsteps _ _ E) as (Hc' & Hp & _).
  rewrite Hc', Hc in Hp; exact Hp.
Defined.







Lemma savings_order_witness :
  OrderLaws Z /\
  exists self savings,
    init sample_locations vehicle_types_data = inr self /\
    compute_savings self = inr savings /\
    map (fun x => (snd (fst x), snd x)) savings = [(1, 2); (1, 3); (2, 3)] /\
    descending (fun x : Z * nat * nat => fst (fst x))
      (sort_reverse (fun x : Z * nat * nat => fst (fst x)) savings).
Proof.
  split; [exact Z_OrderLaws |].
  destruct (@savings_order Z _ Z_OrderLaws sample_locations vehicle_types_data)
    as (self & savings & H1 & H2 & H3 & _ & _ & _ & _ & _ & H4 & _).
  exists self, savings; repeat split; assumption.
Defined.

Lemma combine_routes_first_minimum_witness :
  OrderLaws Z /\ square 4 (cost_matrix sample_algorithm) /\
  [1; 2] <> [] /\ [3] <> [] /\ in_range 4 [1; 2] /\ in_range 4 [3] /\
  exists k best d,
    k = 1 /\ best = [3; 1; 2] /\ d = 2100%Z /\
    combine_routes sample_algorithm [1; 2] [3] = inr (Some best) /\
    nth_error [[1; 2] ++ [3]; [3] ++ [1; 2]; rev [1; 2] ++ [3];
               [1; 2] ++ rev [3]] k = Some best /\
    calculate_route_distance sample_algorithm best = inr d /\
    round_trip (cost_matrix sample_algorithm) best = Some d /\
    (exists d0, round_trip (cost_matrix sample_algorithm) ([1; 2] ++ [3])
                = Some d0 /\ d0 = 2200%Z /\ fltb d d0 = true) /\
    (exists d2, round_trip (cost_matrix sample_algorithm) (rev [1; 2] ++ [3])
                = Some d2 /\ d2 = 2100%Z /\ fltb d2 d = false).
Proof.
  assert (Hr1 : in_range 4 [1; 2]) by (repeat constructor).
  assert (Hr2 : in_range 4 [3]) by (repeat constructor).
  assert (Hn1 : [1; 2] <> @nil nat) by discriminate.
  assert (Hn2 : [3] <> @nil nat) by discriminate.
  repeat (split; [first [exact Z_OrderLaws | exact sample_square | assumption] |]).
  destruct (@combine_routes_first_minimum Z _ Z_OrderLaws sample_algorithm 4
              [1; 2] [3] sample_square Hn1 Hn2 Hr1 Hr2)
    as (k & best & d & Hbest & Hk & Hd & Hrt & Hall).
  assert (Eb : best = [3; 1; 2]).
  { pose proof Hbest as E; vm_compute in E; now injection E. }
  subst best.
  assert (Ed : d = 2100%Z).
  { pose proof Hrt as E; vm_compute in E; now injection E. }
  subst d.
  assert (Ek : k = 1).
  { destruct k as [| [| [| [| k]]]]; simpl in Hk;
      first [reflexivity | discriminate Hk | destruct k; discriminate Hk]. }
  subst k.
  exists 1, [3; 1; 2], 2100%Z.
  repeat (split; [first [reflexivity | assumption] |]).
  split.
  - destruct (Hall 0 ([1; 2] ++ [3]) eq_refl) as (d0 & _ & Hd0 & _ & Hlt).
    exists d0; split; [exact Hd0 |].
    split; [vm_compute in Hd0; now injection Hd0 | apply Hlt; lia].
  - destruct (Hall 2 (rev [1; 2] ++ [3]) eq_refl) as (d2 & _ & Hd2 & Hge & _).
    exists d2; split; [exact Hd2 |].
    split; [vm_compute in Hd2; now injection Hd2 | exact Hge].
Defined.

Lemma combine_routes_permutation_witness :
  square 4 (cost_matrix sample_algorithm) /\
  [1] <> [] /\ [2; 3] <> [] /\ in_range 4 [1] /\ in_range 4 [2; 3] /\
  exists best,
    combine_routes sample_algorithm [1] [2; 3] = inr (Some best) /\
    Permutation best ([1] ++ [2; 3]).
Proof.
  assert (Hr1 : in_range 4 [1]) by (repeat constructor).
  assert (Hr2 : in_range 4 [2; 3]) by (repeat constructor).
  assert (Hn1 : [1] <> @nil nat) by discriminate.
  assert (Hn2 : [2; 3] <> @nil nat) by discriminate.
  repeat (split; [first [exact sample_square | assumption] |]).
  exact (combine_routes_permutation sample_algorithm 4 [1] [2; 3]
           sample_square Hn1 Hn2 Hr1 Hr2).
Defined.

Lemma infeasible_merge_skipped_witness :
  NoDup (map fst tight_locations) /\
  (forall v, In v (map snd vehicle_types_data) -> (capacity v < 20 + 20)%Z) /\
  exists self,
    init tight_locations vehicle_types_data = inr self /\
    optimize_routes self = inr self /\
    map (fun kv => route (snd kv)) (routes self) = [[1]; [2]] /\
    merge_step self (900%Z, 1, 2) = inr self.
Proof.
  assert (Hnd : NoDup (map fst tight_locations)).
  { simpl; repeat constructor; simpl; intuition discriminate. }
  assert (Hcap : forall v, In v (map snd vehicle_types_data) ->
                           (capacity v < 20 + 20)%Z).
  { simpl; intros v [<- | [<- | []]]; simpl; lia. }
  split; [exact Hnd |]; split; [exact Hcap |].
  destruct (@infeasible_merge_skipped Z _) as (Hstep & Hrun).
  destruct (Hrun (loc "Depot" 0 0 0) (loc "1" 3 4 20) (loc "2" 3 5 20)
              vehicle_types_data Hnd Hcap) as (self & Hinit & Hopt & Hroutes).
  exists self; repeat split; try assumption.
  pose proof (init_invariant _ _ _ Hinit) as Hinv.
  assert (E : self = match init tight_locations vehicle_types_data with
                     | inr a => a
                     | inl _ => self
                     end)
    by (unfold tight_locations; rewrite Hinit; reflexivity).
  apply (Hstep self 900%Z 1 2 [1] [2]
           (mkRouteInfo [1] (Some type_a)) (mkRouteInfo [2] (Some type_a))
           40%Z Hinv).
  - rewrite E; vm_compute; auto.
  - rewrite E; vm_compute; auto.
  - simpl; auto.
  - simpl; auto.
  - rewrite E; vm_compute; reflexivity.
  - rewrite E; vm_compute; intros v [<- | [<- | []]]; reflexivity.
Defined.

(** C2: the run that the claim rules out.  [__init__] never raises: for a
    customer whose demand no vehicle covers it stores the vehicle [None] in
    that customer's route.  With the shipped catalog and one customer of
    demand 31, [optimize_routes] then returns the object unchanged and
    [print_optimized_routes] raises [AttributeError]. *)
Theorem infeasible_customer_not_rejected :
  (forall (F : Type) (HF : Number F)
          (locs : list (string * CustomerLocation F))
          (vts : list (string * VehicleType F)),
     exists self, init locs vts = inr self) /\
  (forall v, In v (map snd vehicle_types_data) -> (capacity v < 31)%Z) /\
  exists self,
    init oversized_locations vehicle_types_data = inr self /\
    map (fun kv => (route (snd kv), vehicle (snd kv))) (routes self)
      = [([1], None)] /\
    optimize_routes self = inr self /\
    print_optimized_routes self = inl AttributeError /\
    main oversized_locations vehicle_types_data = inl AttributeError.
Proof.
  split; [intros F HF locs vts; exact (init_total locs vts) |].
  split; [simpl; intros v [<- | [<- | []]]; simpl; lia |].
  vm_compute; eexists; repeat split.
Qed.

(** * Further properties of the engine *)

(** ** Which exceptions the loop body and the report can raise *)

Lemma foldM_error_invariant {A S : Type} (P : S -> Prop) (f : S -> A -> M S)
    (l : list A) (s : S) (e : exn) :
  (forall s a, P s -> (exists s', f s a = inr s' /\ P s') \/ f s a = inl e) ->
  P s ->
  (exists s', foldM f l s = inr s' /\ P s') \/ foldM f l s = inl e.
Proof.
  intros Hstep; revert s; induction l as [| a l IH]; intros s Hs; simpl.
  - left; exists s; auto.
  - destruct (Hstep s a Hs) as [(s1 & -> & Hs1) | ->]; simpl; auto.
Qed.

Section Raises.
Context {F : Type} `{Number F}.
Implicit Types (self : CombinedSavingsAlgorithm F).

(** Under the invariant the loop body returns, or raises [AttributeError]
    on a route without vehicle. *)
Lemma merge_step_cases self (s : F * nat * nat) :
  invariant self ->
  (exists self', merge_step self s = inr self') \/
  (merge_step self s = inl AttributeError /\ has_none self).
Proof.
  intros Hinv; pose proof Hinv as ((Hkeys & Hsq) & Hk & Hp).
  unfold merge_step.
  destruct (find_route_key (routes self) (snd (fst s))) as [ki |] eqn:Hki;
    [| left; eexists; reflexivity].
  destruct (find_route_key (routes self) (snd s)) as [kj |] eqn:Hkj;
    [| left; eexists; reflexivity].
  destruct (truthy ki && truthy kj && negb (tuple_eqb ki kj)) eqn:Hc;
    [| left; eexists; reflexivity].
  apply andb_prop in Hc; destruct Hc as (_ & Hne).
  apply negb_true_iff, tuple_eqb_neq in Hne.
  destruct (find_route_key_some _ _ _ Hki) as (xi & Hxi & _).
  destruct (find_route_key_some _ _ _ Hkj) as (xj & Hxj & _).
  destruct (dict_get_total (routes self) ki) as (info_i & Hgi).
  { change ki with (fst (ki, xi)); now apply in_map. }
  destruct (dict_get_total (routes self) kj) as (info_j & Hgj).
  { change kj with (fst (kj, xj)); now apply in_map. }
  rewrite Hgi, bind_inr_l, Hgj, bind_inr_l; cbv zeta.
  pose proof (dict_get_in _ _ _ Hgi) as Hini.
  pose proof (dict_get_in _ _ _ Hgj) as Hinj.
  destruct (invariant_route_ok _ _ _ Hinv Hini) as (Hnei & Hri).
  destruct (invariant_route_ok _ _ _ Hinv Hinj) as (Hnej & Hrj).
  destruct (total_demand_total self (route info_i ++ route info_j) Hkeys)
    as (td & Htd); [apply Forall_app; split; assumption |].
  rewrite Htd, bind_inr_l.
  destruct (find_smallest_vehicle (vehicle_types self) td) as [v |];
    [| left; eexists; reflexivity].
  destruct (combine_routes_total self _ Hsq _ _ Hnei Hri Hrj)
    as (best & Hbest & Hbin).
  rewrite Hbest, bind_inr_l.
  destruct (calculate_route_distance_total self _ Hsq _ Hnei Hri) as (di & Hdi).
  destruct (calculate_route_distance_total self _ Hsq _ Hnej Hrj) as (dj & Hdj).
  rewrite Hdi, bind_inr_l, Hdj, bind_inr_l.
  destruct (vehicle info_i) as [vi |] eqn:Hvi;
    [| right; split; [reflexivity | exists ki, info_i; auto]].
  destruct (vehicle info_j) as [vj |] eqn:Hvj;
    [| right; split; [reflexivity | exists kj, info_j; auto]].
  left; simpl attr; rewrite !bind_inr_l.
  destruct (merged_routes_ok _ _ _ _ Hnei Hri Hrj Hbin) as (Hbne & Hbr).
  destruct (calculate_route_distance_total self _ Hsq _ Hbne Hbr) as (dn & Hdn).
  rewrite Hdn, bind_inr_l.
  destruct (fltb _ _); [| eexists; reflexivity].
  destruct (dict_del_total (routes self) ki) as (rs1 & Hrs1).
  { change ki with (fst (ki, xi)); now apply in_map. }
  destruct (dict_del_total rs1 kj) as (rs2 & Hrs2).
  { destruct (dict_del_inv _ _ _ Hrs1) as (pre & v0 & post & Hrs & ->).
    rewrite Hrs in Hinj.
    apply in_app_or in Hinj; simpl in Hinj.
    change kj with (fst (kj, info_j)); apply in_map, in_or_app.
    destruct Hinj as [Hin | [E | Hin]]; [now left | | now right].
    injection E as E _; congruence. }
  rewrite Hrs1, bind_inr_l, Hrs2, bind_inr_l.
  eexists; reflexivity.
Qed.

(** A route without vehicle is never merged away. *)
Lemma merge_step_has_none self (s : F * nat * nat) self' :
  invariant self -> has_none self ->
  merge_step self s = inr self' -> has_none self'.
Proof.
  intros Hinv (k & info & Hin & Hnone) E.
  destruct (merge_step_inv _ _ _ E) as [-> | Hc]; [exists k, info; auto |].
  destruct (committed_shape _ _ _ _ Hinv Hc)
    as (info_i & info_j & rs2 & best & v & Hp & _ & _ & _ & -> & _ &
        (di & dj & dn & vi & vj & Hvi & Hvj & _)).
  eapply Permutation_in in Hin; [| exact Hp].
  exists k, info; split; [| exact Hnone]; simpl.
  destruct Hin as [E' | [E' | Hin]].
  - injection E' as _ <-; congruence.
  - injection E' as _ <-; congruence.
  - apply in_or_app; now left.
Qed.

Lemma merge_loop_has_none self (steps : list (F * nat * nat)) :
  invariant self -> has_none self ->
  (exists self', foldM merge_step steps self = inr self' /\
                 invariant self' /\ has_none self') \/
  foldM merge_step steps self = inl AttributeError.
Proof.
  intros Hinv Hnone.
  apply (foldM_error_invariant (fun x => invariant x /\ has_none x));
    [| auto].
  intros x a (Hx & Hnx).
  destruct (merge_step_cases x a Hx) as [(x' & Hx') | (-> & _)]; [left | now right].
  exists x'; split; [exact Hx' |]; split.
  - eapply merge_step_invariant; eauto.
  - eapply merge_step_has_none; eauto.
Qed.

(** The totals loop on routes that are all well-formed: it stops with
    [AttributeError] at the first route without vehicle. *)
Lemma print_fold_raises self (rs : list (list nat * RouteInfo F))
    (totals : F * F) :
  Forall (fun kv => exists d,
            calculate_route_distance self (route (snd kv)) = inr d) rs ->
  (exists k info, In (k, info) rs /\ vehicle info = None) ->
  foldM (fun totals route_info =>
           route_distance <- calculate_route_distance self
                               (route (snd route_info)) ;;
           v <- attr (vehicle (snd route_info)) ;;
           ret (fadd (fst totals) route_distance,
                fadd (snd totals) (fmul route_distance (cost_per_km v))))
        rs totals = inl AttributeError.
Proof.
  revert totals; induction rs as [| kv rs IH]; intros totals Hd Hnone.
  - destruct Hnone as (? & ? & [] & _).
  - inversion Hd as [| ? ? (d & Hdkv) Hd']; subst.
    simpl foldM; rewrite Hdkv, bind_inr_l.
    destruct (vehicle (snd kv)) as [v |] eqn:Hv; [| reflexivity].
    simpl attr; rewrite bind_inr_l; unfold ret at 1; rewrite bind_inr_l.
    apply IH; [exact Hd' |].
    destruct Hnone as (k & info & [E | Hin] & Hn); [| eauto].
    subst kv; simpl in Hv; congruence.
Qed.

Lemma routes_distances self :
  invariant self ->
  Forall (fun kv => exists d,
            calculate_route_distance self (route (snd kv)) = inr d)
         (routes self).
Proof.
  intros Hinv; pose proof Hinv as ((_ & Hsq) & _).
  apply Forall_forall; intros [k info] Hin; simpl.
  destruct (invariant_route_ok _ _ _ Hinv Hin) as (Hne & Hr).
  exact (calculate_route_distance_total self _ Hsq _ Hne Hr).
Qed.

Lemma print_raises self :
  invariant self -> has_none self ->
  print_optimized_routes self = inl AttributeError.
Proof.
  intros Hinv Hnone; unfold print_optimized_routes.
  apply print_fold_raises; [now apply routes_distances | exact Hnone].
Qed.

Lemma print_returns self :
  invariant self ->
  (forall k info, In (k, info) (routes self) -> exists v, vehicle info = Some v) ->
  exists totals, print_optimized_routes self = inr totals.
Proof.
  intros Hinv Hveh.
  destruct (route_costs_total self Hinv Hveh) as (cs & Hcs).
  destruct (print_fold_total self _ (fzero, fzero) cs Hcs) as (td & Htd).
  eexists; exact Htd.
Qed.
End Raises.

(** X1: under the loop invariant, [print_optimized_routes] returns its
    totals when every route has a vehicle, and raises [AttributeError], and
    no other exception, when some route has none. *)
Theorem print_optimized_routes_raises_iff {F : Type} `{Number F}
    (self : CombinedSavingsAlgorithm F) :
  invariant self ->
  ((forall k info, In (k, info) (routes self) ->
      exists v, vehicle info = Some v) ->
   exists totals, print_optimized_routes self = inr totals) /\
  (has_none self -> print_optimized_routes self = inl AttributeError).
Proof.
  intros Hinv; split.
  - exact (print_returns self Hinv).
  - exact (print_raises self Hinv).
Qed.

(** X3: when [__init__] leaves some customer's route without vehicle, the
    program never completes: no run returns from [print_optimized_routes].
    A route without vehicle is never merged and never repaired, so the merge
    loop raises or, at the latest, the report does. *)
Theorem main_never_returns {F : Type} `{Number F}
    (locs : list (string * CustomerLocation F))
    (vts : list (string * VehicleType F))
    (self : CombinedSavingsAlgorithm F) :
  init locs vts = inr self ->
  has_none self ->
  forall result, main locs vts <> inr result.
Proof.
  intros Hself Hnone result.
  pose proof (init_invariant locs vts self Hself) as Hinv.
  unfold main; rewrite Hself, bind_inr_l.
  unfold optimize_routes.
  pose proof Hinv as ((_ & Hsq) & _).
  destruct (compute_savings_total self Hsq) as (savings & ->).
  rewrite bind_inr_l.
  destruct (merge_loop_has_none self
              (sort_reverse (fun x => fst (fst x)) savings) Hinv Hnone)
    as [(self' & -> & Hinv' & Hnone') | ->]; [| discriminate].
  rewrite bind_inr_l, (print_raises self' Hinv' Hnone'); discriminate.
Qed.

(** ** The assignment policy, skipped pairs and the shape of a merge *)

Section Policy.
Context {F : Type} `{Number F}.
Implicit Types (self : CombinedSavingsAlgorithm F)
  (rs : list (list nat * RouteInfo F)).

Lemma init_assigned (locs : list (string * CustomerLocation F))
    (vts : list (string * VehicleType F)) self :
  init locs vts = inr self -> assigned_ok self.
Proof.
  intros E; destruct (init_inv locs vts self E) as (Hl & Hv & Hk & _ & HF).
  unfold assigned_ok; apply Forall_forall; intros kv Hkv.
  apply In_nth_error in Hkv; destruct Hkv as (k & Hkv).
  destruct (Forall2_nth_error_l (Forall2_flip HF) Hkv) as (i & _ & lc & Hlc & ->).
  exists (0 + demand lc)%Z; simpl; split.
  - unfold total_demand_of; simpl; rewrite Hl, Hk, Hlc; reflexivity.
  - rewrite Hv; reflexivity.
Qed.

Lemma merge_step_assigned self (s : F * nat * nat) self' :
  invariant self -> assigned_ok self ->
  merge_step self s = inr self' -> assigned_ok self'.
Proof.
  intros Hinv Hass E.
  destruct (merge_step_inv _ _ _ E) as [-> | Hc]; [exact Hass |].
  pose proof Hinv as (_ & Hk & Hpart).
  destruct Hc.
  assert (Hperm : Permutation best (route info_i ++ route info_j)).
  { destruct (combine_routes_inv self _ _ _ Hbest) as (b & Hb & Hin).
    injection Hb as <-; now apply merged_routes_perm. }
  destruct (commit_shape (routes self) _ _ _ _ _ _ best
              (mkRouteInfo best (Some combined_vehicle))
              Hk (partition_NoDup _ Hpart) Hinfo_i Hinfo_j Hdel_i Hdel_j Hperm)
    as (_ & _ & _ & _ & Hp & Hset).
  subst self'; rewrite Hset.
  unfold assigned_ok in *; simpl.
  rewrite Hp in Hass.
  inversion Hass as [| ? ? _ Hass']; subst.
  inversion Hass' as [| ? ? _ Hass'']; subst.
  apply Forall_app; split; [exact Hass'' |].
  constructor; [| constructor]; simpl.
  exists total_demand; split; [| now symmetry].
  eapply total_demand_perm; [symmetry; exact Hperm | exact Hdemand].
Qed.

Lemma find_route_key_none rs (i : nat) :
  ~ In i (all_stops rs) -> find_route_key rs i = None.
Proof.
  intros Hni; destruct (find_route_key rs i) as [k |] eqn:E; [| reflexivity].
  destruct (find_route_key_some _ _ _ E) as (info & Hin & Hi).
  exfalso; apply Hni; exact (all_stops_in rs (k, info) i Hin Hi).
Qed.

Lemma merge_step_unknown self (sv : F) (i j : nat) :
  ~ In i (all_stops (routes self)) \/ ~ In j (all_stops (routes self)) ->
  merge_step self (sv, i, j) = inr self.
Proof.
  unfold merge_step; simpl; intros [Hi | Hj].
  - rewrite (find_route_key_none _ _ Hi); reflexivity.
  - rewrite (find_route_key_none _ _ Hj).
    destruct (find_route_key (routes self) i); reflexivity.
Qed.

Lemma merge_step_together self (sv : F) (i j : nat) k info :
  invariant self -> In (k, info) (routes self) ->
  In i (route info) -> In j (route info) ->
  merge_step self (sv, i, j) = inr self.
Proof.
  intros Hinv Hin Hi Hj.
  destruct (find_route_key_invariant _ _ _ _ Hinv Hin Hi) as (Hki & _).
  destruct (find_route_key_invariant _ _ _ _ Hinv Hin Hj) as (Hkj & _).
  exact (merge_step_same_route self (sv, i, j) k Hki Hkj).
Qed.

(** Keys are pairwise distinct. *)
Lemma keys_NoDup rs :
  keyed rs -> NoDup (all_stops rs) -> NoDup (map fst rs).
Proof.
  induction rs as [| [k info] rs IH]; intros Hk Hnd; simpl; [constructor |].
  inversion Hk as [| ? ? (Hkey & Hne) Hk']; subst; simpl in *.
  rewrite all_stops_cons in Hnd; simpl in Hnd.
  constructor; [| apply IH; [exact Hk' | eapply NoDup_app_remove_l; eauto]].
  intros Hin; apply in_map_iff in Hin; destruct Hin as ((k' & info') & E & Hin').
  simpl in E; subst k'.
  destruct (keyed_in _ _ _ Hk' Hin') as (Hr' & _).
  destruct k as [| c k]; [congruence |].
  apply (NoDup_app_disjoint _ _ c Hnd).
  - rewrite <- Hkey; now left.
  - apply (all_stops_in rs (c :: k, info')); [exact Hin' |].
    simpl; rewrite Hr'; now left.
Qed.

Lemma filter_all {A : Type} (p : A -> bool) (l : list A) :
  (forall x, In x l -> p x = true) -> filter p l = l.
Proof.
  induction l as [| x l IH]; intros Hp; simpl; [reflexivity |].
  rewrite (Hp x (or_introl eq_refl)), IH; auto.
  intros; apply Hp; now right.
Qed.

(** With distinct keys, [del d[k]] keeps the other entries, in order. *)
Lemma dict_del_filter rs k rs' :
  NoDup (map fst rs) ->
  dict_del tuple_eqb rs k = inr rs' ->
  rs' = filter (fun kv => negb (tuple_eqb (fst kv) k)) rs.
Proof.
  revert rs'; induction rs as [| [k' v] rs IH]; intros rs' Hnd E; simpl in *;
    [discriminate |].
  inversion Hnd as [| ? ? Hk' Hnd']; subst.
  destruct (tuple_eqb k' k) eqn:Ek; simpl.
  - injection E as <-; apply tuple_eqb_eq in Ek; subst k'.
    symmetry; apply filter_all; intros [k2 v2] Hin; simpl.
    apply negb_true_iff, tuple_eqb_neq; intros ->.
    apply Hk'; change k with (fst (k, v2)); now apply in_map.
  - apply bind_inr in E; destruct E as (d'' & Hd'' & E); injection E as <-.
    f_equal; auto.
Qed.

Lemma filter_filter {A : Type} (p q : A -> bool) (l : list A) :
  filter q (filter p l) = filter (fun x => p x && q x) l.
Proof.
  induction l as [| x l IH]; simpl; [reflexivity |].
  destruct (p x); simpl; [destruct (q x); simpl; now rewrite IH | exact IH].
Qed.

Lemma NoDup_map_filter {A B : Type} (g : A -> B) (p : A -> bool) (l : list A) :
  NoDup (map g l) -> NoDup (map g (filter p l)).
Proof.
  induction l as [| x l IH]; simpl; intros Hnd; [constructor |].
  inversion Hnd as [| ? ? Hx Hnd']; subst.
  destruct (p x); simpl; [| auto].
  constructor; [| auto].
  intros Hin; apply Hx.
  apply in_map_iff in Hin; destruct Hin as (y & E & Hy).
  apply filter_In in Hy; destruct Hy as (Hy & _).
  rewrite <- E; now apply in_map.
Qed.

(** A committed merge keeps the other routes in their order and appends the
    merged route. *)
Lemma committed_order self (i j : nat) self' :
  invariant self -> committed self i j self' ->
  exists ki kj best v,
    ki <> kj /\ In ki (map fst (routes self)) /\ In kj (map fst (routes self)) /\
    Permutation best (ki ++ kj) /\
    routes self' = without_keys ki kj (routes self)
                   ++ [(best, mkRouteInfo best (Some v))] /\
    length (routes self') + 1 = length (routes self).
Proof.
  intros Hinv Hc; pose proof Hinv as (_ & Hk & Hpart).
  pose proof (partition_NoDup _ Hpart) as Hnd.
  pose proof (keys_NoDup _ Hk Hnd) as Hkeys.
  destruct Hc.
  assert (Hperm : Permutation best (route info_i ++ route info_j)).
  { destruct (combine_routes_inv self _ _ _ Hbest) as (b & Hb & Hin).
    injection Hb as <-; now apply merged_routes_perm. }
  destruct (commit_shape (routes self) _ _ _ _ _ _ best
              (mkRouteInfo best (Some combined_vehicle))
              Hk Hnd Hinfo_i Hinfo_j Hdel_i Hdel_j Hperm)
    as (Hri & Hrj & _ & _ & Hp & Hset).
  exists route_i_key, route_j_key, best, combined_vehicle.
  split; [exact Hdistinct |].
  split; [apply dict_get_in in Hinfo_i;
          change route_i_key with (fst (route_i_key, info_i)); now apply in_map |].
  split; [apply dict_get_in in Hinfo_j;
          change route_j_key with (fst (route_j_key, info_j)); now apply in_map |].
  split; [now rewrite <- Hri, <- Hrj |].
  subst self'; simpl; rewrite Hset; split.
  - f_equal.
    pose proof (dict_del_filter _ _ _ Hkeys Hdel_i) as E1.
    assert (Hkeys1 : NoDup (map fst rs1))
      by (rewrite E1; now apply NoDup_map_filter).
    pose proof (dict_del_filter _ _ _ Hkeys1 Hdel_j) as E2.
    rewrite E2, E1, filter_filter; reflexivity.
  - apply Permutation_length in Hp; simpl in Hp.
    rewrite length_app; simpl; lia.
Qed.

Lemma routes_count rs :
  keyed rs -> length rs <= length (all_stops rs).
Proof.
  induction 1 as [| kv rs (_ & Hne) _ IH]; simpl; [lia |].
  rewrite all_stops_cons, length_app.
  destruct (route (snd kv)); [congruence | simpl; lia].
Qed.
End Policy.

(** X4: the assignment policy is an invariant: after [__init__] and after
    any loop iterations that return, every route's vehicle is what
    [find_smallest_vehicle] returns for the summed demand of the route's
    customers, so it is the cheapest vehicle that covers the load, or [None]
    when no vehicle does. *)
Theorem vehicle_assignment_policy {F : Type} `{Number F}
    (locs : list (string * CustomerLocation F))
    (vts : list (string * VehicleType F)) :
  exists self,
    init locs vts = inr self /\
    forall (steps : list (F * nat * nat)) self',
      foldM merge_step steps self = inr self' ->
      forall k info, In (k, info) (routes self') ->
        exists td,
          total_demand_of self' (route info) = inr td /\
          vehicle info = find_smallest_vehicle vts td.
Proof.
  destruct (init_total locs vts) as (self & Hself).
  exists self; split; [exact Hself |].
  intros steps self' E k info Hin.
  pose proof (init_invariant locs vts self Hself) as Hinv.
  pose proof (init_assigned locs vts self Hself) as Hass.
  destruct (init_inv locs vts self Hself) as (_ & Hv & _).
  assert (Hall : (invariant self' /\ assigned_ok self') /\
                 vehicle_types self' = vts).
  { apply (foldM_invariant
             (fun x => (invariant x /\ assigned_ok x) /\ vehicle_types x = vts)
             merge_step steps self self'); auto.
    intros x a x' ((Hx & Hax) & Hvx) Hstep.
    split; [split |].
    - eapply merge_step_invariant; eauto.
    - eapply merge_step_assigned; eauto.
    - destruct (merge_step_static _ _ _ Hstep) as (_ & -> & _); exact Hvx. }
  destruct Hall as ((_ & Hass') & Hv').
  unfold assigned_ok in Hass'; rewrite Forall_forall in Hass'.
  destruct (Hass' _ Hin) as (td & Htd & Hveh); simpl in *.
  exists td; rewrite <- Hv'; auto.
Qed.

(** X5: a pair is skipped, the loop body returning the object unchanged
    without raising, when one of its two indices is a stop of no route, and,
    under the loop invariant, when both indices are stops of the same
    route. *)
Theorem no_op_pairs {F : Type} `{Number F}
    (self : CombinedSavingsAlgorithm F) (sv : F) (i j : nat) :
  (~ In i (all_stops (routes self)) \/ ~ In j (all_stops (routes self)) ->
   merge_step self (sv, i, j) = inr self) /\
  (invariant self ->
   forall k info, In (k, info) (routes self) ->
     In i (route info) -> In j (route info) ->
     merge_step self (sv, i, j) = inr self).
Proof.
  split.
  - exact (merge_step_unknown self sv i j).
  - intros Hinv k info; exact (merge_step_together self sv i j k info Hinv).
Qed.

(** X6: under the loop invariant a loop iteration that returns either leaves
    the RouteSet as it is or removes the entries of two different keys,
    keeps all other entries in their order and appends the merged route, a
    permutation of the two removed routes, as the last entry: the number of
    routes goes down by exactly one. *)
Theorem merge_step_shape {F : Type} `{Number F}
    (self : CombinedSavingsAlgorithm F) (s : F * nat * nat)
    (self' : CombinedSavingsAlgorithm F) :
  invariant self ->
  merge_step self s = inr self' ->
  routes self' = routes self \/
  exists ki kj best v,
    ki <> kj /\ In ki (map fst (routes self)) /\ In kj (map fst (routes self)) /\
    Permutation best (ki ++ kj) /\
    routes self' = without_keys ki kj (routes self)
                   ++ [(best, mkRouteInfo best (Some v))] /\
    length (routes self') + 1 = length (routes self).
Proof.
  intros Hinv E.
  destruct (merge_step_inv _ _ _ E) as [-> | Hc]; [now left | right].
  exact (committed_order self _ _ self' Hinv Hc).
Qed.

(** X7: after [__init__] and any loop iterations that return, every key of
    the RouteSet is the tuple of its route, no route is empty, the keys are
    pairwise distinct, and with [n >= 1] customers there are between one and
    [n] routes. *)
Theorem route_set_well_formed {F : Type} `{Number F}
    (locs : list (string * CustomerLocation F))
    (vts : list (string * VehicleType F)) :
  exists self,
    init locs vts = inr self /\
    forall (steps : list (F * nat * nat)) self',
      foldM merge_step steps self = inr self' ->
      (forall k info, In (k, info) (routes self') ->
         k = route info /\ route info <> []) /\
      NoDup (map fst (routes self')) /\
      length (routes self') <= length locs - 1 /\
      (1 <= length locs - 1 -> 1 <= length (routes self')).
Proof.
  destruct (init_total locs vts) as (self & Hself).
  exists self; split; [exact Hself |].
  intros steps self' E.
  pose proof (init_invariant locs vts self Hself) as Hinv.
  destruct (init_inv locs vts self Hself) as (Hl & _).
  destruct (merge_loop_invariant _ _ _ Hinv E) as ((_ & Hk & Hp) & Hc).
  pose proof (Permutation_length Hp) as Hlen.
  rewrite Hc in Hlen; unfold customers in Hlen.
  rewrite length_seq, Hl in Hlen.
  pose proof (routes_count _ Hk) as Hcount.
  split; [| split; [| split]].
  - intros k info Hin; destruct (keyed_in _ _ _ Hk Hin); split; congruence.
  - apply keys_NoDup; [exact Hk | now apply partition_NoDup].
  - lia.
  - intros Hn; destruct (routes self'); simpl in *; lia.
Qed.

(** ** Route distance: when it raises *)

Section DistanceErrors.
Context {F : Type} `{Number F}.
Implicit Types (self : CombinedSavingsAlgorithm F).

Lemma index_inl {A : Type} (l : list A) (i : nat) (e : exn) :
  index l i = inl e -> e = IndexError.
Proof.
  unfold index; destruct (nth_error l i); simpl; intros E;
    [discriminate | now injection E].
Qed.

Lemma bind_inl {A B : Type} (m : M A) (f : A -> M B) (e : exn) :
  bind m f = inl e -> m = inl e \/ exists a, m = inr a /\ f a = inl e.
Proof.
  destruct m as [e' | a]; simpl; intros E.
  - left; injection E as ->; reflexivity.
  - right; exists a; split; [reflexivity | exact E].
Qed.

Lemma cost_at_inl self (a b : nat) (e : exn) :
  cost_at self a b = inl e -> e = IndexError.
Proof.
  unfold cost_at; intros E.
  apply bind_inl in E; destruct E as [E | (row & _ & E)];
    eapply index_inl; eauto.
Qed.

Lemma cost_at_bounds self (n a b : nat) (c : F) :
  square n (cost_matrix self) -> cost_at self a b = inr c -> a < n /\ b < n.
Proof.
  intros (Hlen & Hrows) E; unfold cost_at in E.
  apply bind_inr in E; destruct E as (row & Hrow & E).
  apply index_inr in Hrow, E.
  pose proof (nth_error_In _ _ Hrow) as Hin.
  rewrite Forall_forall in Hrows; specialize (Hrows row Hin).
  split.
  - rewrite <- Hlen; apply nth_error_Some; congruence.
  - rewrite <- Hrows; apply nth_error_Some; congruence.
Qed.

Lemma legs_distance_inl self (rt : list nat) (acc : F) (e : exn) :
  legs_distance self rt acc = inl e -> e = IndexError.
Proof.
  revert acc; induction rt as [| a rt IH]; intros acc E; [discriminate |].
  destruct rt as [| b rt]; [discriminate |].
  change (legs_distance self (a :: b :: rt) acc)
    with (c <- cost_at self a b ;; legs_distance self (b :: rt) (fadd acc c)) in E.
  apply bind_inl in E; destruct E as [E | (c & _ & E)];
    [eapply cost_at_inl; eauto | eauto].
Qed.

Lemma legs_distance_bounds self (n : nat) (rt : list nat) (acc d : F) :
  square n (cost_matrix self) ->
  2 <= length rt ->
  legs_distance self rt acc = inr d -> in_range n rt.
Proof.
  intros Hsq; revert acc; induction rt as [| a rt IH]; intros acc Hlen E;
    [simpl in Hlen; lia |].
  destruct rt as [| b rt]; [simpl in Hlen; lia |].
  change (legs_distance self (a :: b :: rt) acc)
    with (c <- cost_at self a b ;; legs_distance self (b :: rt) (fadd acc c)) in E.
  apply bind_inr in E; destruct E as (c & Hc & E).
  destruct (cost_at_bounds self n a b c Hsq Hc) as (Ha & Hb).
  constructor; [exact Ha |].
  destruct rt as [| b' rt]; [repeat constructor; exact Hb |].
  eapply IH; [simpl; lia | exact E].
Qed.

Lemma calculate_route_distance_inl self (rt : list nat) (e : exn) :
  calculate_route_distance self rt = inl e -> e = IndexError.
Proof.
  unfold calculate_route_distance; intros E.
  apply bind_inl in E; destruct E as [E | (d & _ & E)];
    [eapply legs_distance_inl; eauto |].
  apply bind_inl in E; destruct E as [E | (f & _ & E)];
    [eapply index_inl; eauto |].
  apply bind_inl in E; destruct E as [E | (c1 & _ & E)];
    [eapply cost_at_inl; eauto |].
  apply bind_inl in E; destruct E as [E | (l & _ & E)].
  - unfold last_stop in E; destruct rt; [now injection E | discriminate].
  - apply bind_inl in E; destruct E as [E | (c2 & _ & E)];
      [eapply cost_at_inl; eauto | discriminate].
Qed.

Lemma calculate_route_distance_bounds self (n : nat) (rt : list nat) (d : F) :
  square n (cost_matrix self) ->
  calculate_route_distance self rt = inr d -> rt <> [] /\ in_range n rt.
Proof.
  intros Hsq E; unfold calculate_route_distance in E.
  apply bind_inr in E; destruct E as (dl & Hdl & E).
  apply bind_inr in E; destruct E as (f & Hf & E).
  apply bind_inr in E; destruct E as (c1 & Hc1 & E).
  destruct rt as [| a rt]; [discriminate |].
  split; [discriminate |].
  destruct rt as [| b rt].
  - simpl in Hf; injection Hf as <-.
    destruct (cost_at_bounds self n 0 a c1 Hsq Hc1) as (_ & Ha).
    repeat constructor; exact Ha.
  - eapply legs_distance_bounds; [exact Hsq | simpl; lia | exact Hdl].
Qed.
End DistanceErrors.

(** X8: on a square cost matrix with [n] rows, [calculate_route_distance]
    returns a distance exactly for the non-empty routes whose stops are all
    below [n]; for the empty route and for a stop outside the matrix it
    raises, and the only exception it raises is [IndexError]. *)
Theorem calculate_route_distance_defined {F : Type} `{Number F}
    (self : CombinedSavingsAlgorithm F) (n : nat) (rt : list nat) :
  square n (cost_matrix self) ->
  ((exists d, calculate_route_distance self rt = inr d) <->
   rt <> [] /\ in_range n rt) /\
  (forall e, calculate_route_distance self rt = inl e -> e = IndexError).
Proof.
  intros Hsq; split; [split |].
  - intros (d & Hd); exact (calculate_route_distance_bounds self n rt d Hsq Hd).
  - intros (Hne & Hr); exact (calculate_route_distance_total self n Hsq rt Hne Hr).
  - intros e; exact (calculate_route_distance_inl self rt e).
Qed.

(** X16: [calculate_route_distance] computes the round trip of its
    description: it returns [d] exactly when [d] is the sum, taken in the
    order of travel, of the legs between consecutive stops plus the two depot
    legs, and it raises [IndexError] exactly when that sum is undefined,
    for the empty route or a leg outside the matrix. *)
Theorem route_distance_is_leg_sum {F : Type} `{Number F}
    (self : CombinedSavingsAlgorithm F) (rt : list nat) :
  (forall d, calculate_route_distance self rt = inr d <->
             round_trip (cost_matrix self) rt = Some d) /\
  (calculate_route_distance self rt = inl IndexError <->
   round_trip (cost_matrix self) rt = None).
Proof.
  split; [intros d; exact (calculate_route_distance_round_trip self rt d) |].
  split.
  - intros E.
    destruct (round_trip (cost_matrix self) rt) as [d |] eqn:Ert;
      [| reflexivity].
    apply calculate_route_distance_round_trip in Ert; congruence.
  - intros Ert.
    destruct (calculate_route_distance self rt) as [e | d] eqn:E.
    + now rewrite (calculate_route_distance_inl self rt e E).
    + apply calculate_route_distance_round_trip in E; congruence.
Qed.

(** ** The vehicle selector is monotone in the demand *)

(** X9: a larger demand never gets a cheaper vehicle: when
    [find_smallest_vehicle] finds a vehicle for a demand, it finds one for
    every smaller demand, of a cost per km that is not greater; and when it
    finds none for a demand, it finds none for any larger demand. *)
Theorem find_smallest_vehicle_monotone {F : Type} `{Number F} `{!OrderLaws F}
    (vts : list (string * VehicleType F)) (d d' : Z) :
  (d <= d')%Z ->
  (forall v', find_smallest_vehicle vts d' = Some v' ->
     exists v, find_smallest_vehicle vts d = Some v /\
               fltb (cost_per_km v') (cost_per_km v) = false) /\
  (find_smallest_vehicle vts d = None -> find_smallest_vehicle vts d' = None).
Proof.
  intros Hle; split.
  - intros v' Hv'.
    destruct (find_smallest_vehicle_some vts d' v' Hv') as (Hin' & Hcap' & _).
    destruct (find_smallest_vehicle vts d) as [v |] eqn:Ev.
    + exists v; split; [reflexivity |].
      destruct (find_smallest_vehicle_some vts d v Ev) as (_ & _ & Hmin & _).
      apply Hmin; [exact Hin' | lia].
    + pose proof (proj1 (find_smallest_vehicle_none vts d) Ev v' Hin'); lia.
  - intros Hnone; apply find_smallest_vehicle_none; intros v Hv.
    pose proof (proj1 (find_smallest_vehicle_none vts d) Hnone v Hv); lia.
Qed.

(** ** The number of pairs *)

Lemma customer_pairs_count_from (n k s : nat) :
  s + k = n + 1 ->
  2 * length (flat_map (fun a => map (fun b => (a, b)) (seq (a + 1) (n - a)))
                       (seq s k)) = k * (k - 1).
Proof.
  revert s; induction k as [| k IH]; intros s Hs; simpl; [reflexivity |].
  rewrite length_app, length_map, length_seq.
  specialize (IH (S s) ltac:(lia)).
  replace (n - s) with k by lia.
  rewrite Nat.sub_0_r; nia.
Qed.

(** X10: for [n] customers the savings list that [optimize_routes] builds
    has [n * (n - 1) / 2] entries, and the sorted list the merge loop goes
    through has the same length. *)
Theorem savings_count {F : Type} `{Number F}
    (self : CombinedSavingsAlgorithm F) (savings : list (F * nat * nat)) :
  compute_savings self = inr savings ->
  let n := length (locations self) - 1 in
  2 * length savings = n * (n - 1) /\
  length (sort_reverse (fun x => fst (fst x)) savings) = length savings.
Proof.
  intros E n; split.
  - rewrite <- (length_map (fun x => (snd (fst x), snd x)) savings).
    rewrite (compute_savings_pairs self savings E).
    apply customer_pairs_count_from; lia.
  - apply Permutation_length, sort_reverse_perm.
Qed.

(** ** An instance without customers *)


(** ** [is_symmetric] *)

Lemma nth_error_rows_ext {A : Type} (a b : list (list A)) :
  length a = length b ->
  (forall i j, entry a i j = entry b i j) -> a = b.
Proof.
  intros Hlen Hent; apply nth_error_ext; intros i.
  destruct (nth_error a i) as [r |] eqn:Ea, (nth_error b i) as [r' |] eqn:Eb.
  - f_equal; apply nth_error_ext; intros j.
    specialize (Hent i j); unfold entry in Hent.
    now rewrite Ea, Eb in Hent.
  - apply nth_error_None in Eb.
    assert (i < length a) by (apply nth_error_Some; congruence); lia.
  - apply nth_error_None in Ea.
    assert (i < length b) by (apply nth_error_Some; congruence); lia.
  - reflexivity.
Qed.

Section SymmetryFacts.
Context {F : Type} `{Number F} `{NumberEq F} `{!EqLaws F}.

Lemma feqb_refl (x : F) : feqb x x = true.
Proof. now apply feqb_eq. Qed.

Lemma cells_equal (r1 r2 : list F) :
  length r1 = length r2 ->
  (forallb (fun cells => feqb (fst cells) (snd cells)) (combine r1 r2) = true
   <-> r1 = r2).
Proof.
  revert r2; induction r1 as [| x r1 IH]; intros [| y r2] Hlen;
    simpl in *; try discriminate; [tauto |].
  rewrite andb_true_iff, feqb_eq, (IH r2) by lia.
  split; [intros (-> & ->); reflexivity | intros E; injection E; auto].
Qed.

Lemma rows_equal (a b : list (list F)) :
  Forall2 (fun r1 r2 => length r1 = length r2) a b ->
  (forallb (fun rows =>
              forallb (fun cells => feqb (fst cells) (snd cells))
                      (combine (fst rows) (snd rows)))
           (combine a b) = true
   <-> a = b).
Proof.
  induction 1 as [| r1 r2 a b Hr _ IH]; simpl; [tauto |].
  rewrite andb_true_iff, (cells_equal r1 r2 Hr), IH.
  split; [intros (-> & ->); reflexivity | intros E; injection E; auto].
Qed.

Lemma same_row_lengths (c : nat) (a b : list (list F)) :
  Forall (fun row => length row = c) a ->
  Forall (fun row => length row = c) b ->
  length a = length b ->
  Forall2 (fun r1 r2 => length r1 = length r2) a b.
Proof.
  intros Ha; revert b; induction Ha as [| r a Hr _ IH]; intros [| r' b] Hb Hlen;
    simpl in *; try discriminate; constructor.
  - inversion Hb; congruence.
  - inversion Hb; apply IH; auto.
Qed.

Lemma array_equal_eq (a b : list (list F)) :
  rectangular a -> rectangular b ->
  (array_equal a b = true <-> a = b).
Proof.
  intros Ha Hb; unfold array_equal; split.
  - intros E; apply andb_prop in E; destruct E as (E & Hrows).
    apply andb_prop in E; destruct E as (Hlen & Hcols).
    apply Nat.eqb_eq in Hlen, Hcols.
    apply rows_equal in Hrows; [exact Hrows |].
    apply (same_row_lengths (ncols a)); auto.
    unfold rectangular in Hb; now rewrite Hcols.
  - intros <-; rewrite !Nat.eqb_refl; simpl.
    apply rows_equal; [| reflexivity].
    apply (same_row_lengths (ncols a)); auto.
Qed.

Lemma transpose_length (m : list (list F)) : length (transpose m) = ncols m.
Proof. unfold transpose; now rewrite length_map, length_seq. Qed.

Lemma transpose_rectangular (m : list (list F)) : rectangular (transpose m).
Proof.
  assert (Hall : Forall (fun row => length row = length m) (transpose m)).
  { unfold transpose; apply Forall_forall; intros row Hrow.
    apply in_map_iff in Hrow; destruct Hrow as (j & <- & _).
    now rewrite length_map. }
  unfold rectangular.
  destruct (transpose m) as [| row rest] eqn:E; [constructor |].
  simpl; inversion Hall as [| ? ? Hrow _]; subst.
  rewrite Hrow; exact Hall.
Qed.

Lemma entry_transpose (m : list (list F)) (i j : nat) :
  rectangular m -> entry (transpose m) i j = entry m j i.
Proof.
  intros Hrect; unfold rectangular in Hrect; rewrite Forall_forall in Hrect.
  unfold entry, transpose.
  destruct (Nat.lt_ge_cases i (ncols m)) as [Hi | Hi].
  - rewrite nth_error_map, (nth_error_seq_lt 0 Hi); simpl.
    rewrite nth_error_map.
    destruct (nth_error m j) as [row |] eqn:Ej; simpl; [| reflexivity].
    symmetry; apply nth_error_nth'.
    rewrite (Hrect row (nth_error_In _ _ Ej)); exact Hi.
  - assert (E : nth_error (map (fun j0 => map (fun row => nth j0 row fzero) m)
                               (seq 0 (ncols m))) i = None).
    { apply nth_error_None; now rewrite length_map, length_seq. }
    rewrite E.
    destruct (nth_error m j) as [row |] eqn:Ej; [| reflexivity].
    symmetry; apply nth_error_None.
    rewrite (Hrect row (nth_error_In _ _ Ej)); exact Hi.
Qed.

Lemma is_symmetric_spec (m : list (list F)) :
  rectangular m ->
  (is_symmetric m = true <-> length m = ncols m /\ symmetric m).
Proof.
  intros Hrect; unfold is_symmetric.
  rewrite (array_equal_eq m (transpose m) Hrect (transpose_rectangular m)).
  split.
  - intros E; split.
    + rewrite <- transpose_length, <- E; reflexivity.
    + intros i j; rewrite <- (entry_transpose m j i Hrect), <- E; reflexivity.
  - intros (Hlen & Hsym); apply nth_error_rows_ext.
    + now rewrite transpose_length.
    + intros i j; rewrite (entry_transpose m i j Hrect); apply Hsym.
Qed.
End SymmetryFacts.

Section CostMatrixSymmetry.
Context {F : Type} `{Number F} `{!MetricLaws F}.

Lemma entry_outside (n : nat) (cm : list (list F)) (i j : nat) :
  length cm = n -> (forall row, In row cm -> length row = n) ->
  n <= i \/ n <= j -> entry cm i j = None.
Proof.
  intros Hlen Hrows Hout; unfold entry.
  destruct (nth_error cm i) as [row |] eqn:Ei; [| reflexivity].
  assert (Hi : i < n) by (rewrite <- Hlen; apply nth_error_Some; congruence).
  apply nth_error_None.
  rewrite (Hrows row (nth_error_In _ _ Ei)); lia.
Qed.

Lemma cost_matrix_symmetric (locs : list (string * CustomerLocation F))
    (cm : list (list F)) :
  calculate_cost_matrix locs (map fst locs) = inr cm ->
  symmetric cm /\ rectangular cm /\ length cm = ncols cm.
Proof.
  intros E.
  destruct (calculate_cost_matrix_shape locs cm E) as (Hlen & Hrows).
  assert (Hcols : ncols cm = length locs).
  { destruct cm as [| row rest]; simpl in *; [congruence |].
    apply Hrows; now left. }
  split; [| split].
  - intros i j.
    destruct (Nat.lt_ge_cases i (length locs)) as [Hi | Hi];
      [destruct (Nat.lt_ge_cases j (length locs)) as [Hj | Hj] |].
    + destruct (calculate_cost_matrix_entry locs cm i j E Hi Hj)
        as (li & lj & Hli & Hlj & Hij).
      destruct (calculate_cost_matrix_entry locs cm j i E Hj Hi)
        as (lj' & li' & Hlj' & Hli' & Hji).
      rewrite Hij, Hji; f_equal.
      assert (li' = li) by congruence; assert (lj' = lj) by congruence; subst.
      exact (calculate_distance_sym li lj).
    + rewrite !(entry_outside (length locs)); auto.
    + rewrite !(entry_outside (length locs)); auto.
  - unfold rectangular; apply Forall_forall; intros row Hrow.
    rewrite Hcols; now apply Hrows.
  - congruence.
Qed.
End CostMatrixSymmetry.

(** X14: for a rectangular array, [is_symmetric] returns [True] exactly when
    the array is square and [m[i][j] == m[j][i]] for all cells; an array
    that is not square gets [False]. *)
Theorem is_symmetric_correct {F : Type} `{Number F} `{NumberEq F}
    `{!EqLaws F} (m : list (list F)) :
  rectangular m ->
  (is_symmetric m = true <-> length m = ncols m /\ symmetric m).
Proof. exact (is_symmetric_spec m). Qed.

(** X15: the matrix that [calculate_cost_matrix] returns passes
    [is_symmetric], and the object that [__init__] builds holds a symmetric
    cost matrix. *)
Theorem cost_matrix_is_symmetric {F : Type} `{Number F} `{NumberEq F}
    `{!MetricLaws F} `{!EqLaws F}
    (locs : list (string * CustomerLocation F))
    (vts : list (string * VehicleType F)) :
  exists self,
    init locs vts = inr self /\
    calculate_cost_matrix locs (map fst locs) = inr (cost_matrix self) /\
    symmetric (cost_matrix self) /\
    is_symmetric (cost_matrix self) = true.
Proof.
  destruct (init_total locs vts) as (self & Hself).
  destruct (init_inv locs vts self Hself) as (_ & _ & _ & Hcm & _).
  destruct (cost_matrix_symmetric locs _ Hcm) as (Hsym & Hrect & Hsq).
  exists self; repeat split; try assumption.
  apply (is_symmetric_spec _ Hrect); auto.
Qed.

(** ** Concrete runs of the further properties *)

Lemma Z_EqLaws : EqLaws Z.
Proof. constructor; simpl; intros x y; apply Z.eqb_eq. Qed.

Lemma sample_vehicles k info :
  In (k, info) (routes sample_algorithm) -> exists v, vehicle info = Some v.
Proof.
  intros Hin; vm_compute in Hin.
  destruct Hin as [Hin | [Hin | [Hin | []]]]; injection Hin as <- <-;
    eexists; reflexivity.
Qed.

Lemma sample_step :
  merge_step sample_algorithm (900%Z, 1, 2) = inr sample_merged.
Proof. vm_compute; reflexivity. Qed.

Lemma sample_merged_invariant : invariant sample_merged.
Proof. exact (merge_step_invariant _ _ _ sample_invariant sample_step). Qed.

Lemma oversized_init :
  init oversized_locations vehicle_types_data = inr oversized_algorithm.
Proof. vm_compute; reflexivity. Qed.

Lemma oversized_has_none : has_none oversized_algorithm.
Proof. exists [1], (mkRouteInfo [1] None); vm_compute; auto. Qed.

Lemma print_optimized_routes_raises_iff_witness :
  invariant sample_algorithm /\
  (exists totals, print_optimized_routes sample_algorithm = inr totals) /\
  has_none oversized_algorithm /\
  print_optimized_routes oversized_algorithm = inl AttributeError.
Proof.
  split; [exact sample_invariant |].
  split.
  - exact (proj1 (print_optimized_routes_raises_iff sample_algorithm
                    sample_invariant) sample_vehicles).
  - split; [exact oversized_has_none |].
    exact (proj2 (print_optimized_routes_raises_iff oversized_algorithm
                    (init_invariant _ _ _ oversized_init)) oversized_has_none).
Defined.

Lemma main_never_returns_witness :
  init oversized_locations vehicle_types_data = inr oversized_algorithm /\
  has_none oversized_algorithm /\
  forall result, main oversized_locations vehicle_types_data <> inr result.
Proof.
  split; [exact oversized_init |]; split; [exact oversized_has_none |].
  exact (main_never_returns oversized_locations vehicle_types_data
           oversized_algorithm oversized_init oversized_has_none).
Defined.

Lemma vehicle_assignment_policy_witness :
  exists self self',
    init sample_locations vehicle_types_data = inr self /\
    foldM merge_step [(900%Z, 1, 2)] self = inr self' /\
    forall k info, In (k, info) (routes self') ->
      exists td,
        total_demand_of self' (route info) = inr td /\
        vehicle info = find_smallest_vehicle vehicle_types_data td.
Proof.
  destruct (vehicle_assignment_policy sample_locations vehicle_types_data)
    as (self & Hinit & Hsteps).
  assert (E : exists self', foldM merge_step [(900%Z, 1, 2)] self = inr self').
  { rewrite sample_init in Hinit; injection Hinit as <-.
    vm_compute; eexists; reflexivity. }
  destruct E as (self' & E).
  exists self, self'; split; [exact Hinit |]; split; [exact E |].
  exact (Hsteps _ _ E).
Defined.

Lemma no_op_pairs_witness :
  ~ In 7 (all_stops (routes sample_merged)) /\
  merge_step sample_merged (900%Z, 7, 2) = inr sample_merged /\
  invariant sample_merged /\
  In ([1; 2], mkRouteInfo [1; 2] (Some type_a)) (routes sample_merged) /\
  merge_step sample_merged (900%Z, 1, 2) = inr sample_merged.
Proof.
  assert (H7 : ~ In 7 (all_stops (routes sample_merged))).
  { vm_compute; intuition discriminate. }
  assert (Hin : In ([1; 2], mkRouteInfo [1; 2] (Some type_a))
                   (routes sample_merged)).
  { vm_compute; auto. }
  split; [exact H7 |].
  split; [exact (proj1 (no_op_pairs sample_merged 900%Z 7 2) (or_introl H7)) |].
  split; [exact sample_merged_invariant |].
  split; [exact Hin |].
  apply (proj2 (no_op_pairs sample_merged 900%Z 1 2) sample_merged_invariant
           _ _ Hin); simpl; auto.
Defined.

Lemma merge_step_shape_witness :
  invariant sample_algorithm /\
  merge_step sample_algorithm (900%Z, 1, 2) = inr sample_merged /\
  length (routes sample_merged) + 1 = length (routes sample_algorithm).
Proof.
  split; [exact sample_invariant |]; split; [exact sample_step |].
  destruct (merge_step_shape sample_algorithm (900%Z, 1, 2) sample_merged
              sample_invariant sample_step)
    as [E | (ki & kj & best & v & _ & _ & _ & _ & _ & Hlen)];
    [vm_compute in E; discriminate E | exact Hlen].
Defined.

Lemma route_set_well_formed_witness :
  exists self self',
    init sample_locations vehicle_types_data = inr self /\
    foldM merge_step [(900%Z, 1, 2)] self = inr self' /\
    NoDup (map fst (routes self')) /\
    length (routes self') <= 3.
Proof.
  destruct (route_set_well_formed sample_locations vehicle_types_data)
    as (self & Hinit & Hsteps).
  assert (E : exists self', foldM merge_step [(900%Z, 1, 2)] self = inr self').
  { rewrite sample_init in Hinit; injection Hinit as <-.
    vm_compute; eexists; reflexivity. }
  destruct E as (self' & E).
  exists self, self'; split; [exact Hinit |]; split; [exact E |].
  destruct (Hsteps _ _ E) as (_ & Hnd & Hle & _); auto.
Defined.

Lemma calculate_route_distance_defined_witness :
  square 4 (cost_matrix sample_algorithm) /\
  (exists d, calculate_route_distance sample_algorithm [1; 2] = inr d) /\
  calculate_route_distance sample_algorithm [] = inl IndexError /\
  calculate_route_distance sample_algorithm [1; 9] = inl IndexError.
Proof.
  split; [exact sample_square |].
  split.
  - apply (proj1 (calculate_route_distance_defined sample_algorithm 4 [1; 2]
                    sample_square)).
    split; [discriminate | repeat constructor].
  - split; vm_compute; reflexivity.
Defined.

Lemma route_distance_is_leg_sum_witness :
  calculate_route_distance shipped_algorithm [1; 4]
  = inr 31.314583393249528%float /\
  calculate_route_distance shipped_algorithm [] = inl IndexError /\
  calculate_route_distance shipped_algorithm [1; 11] = inl IndexError.
Proof.
  split; [| split].
  - apply (proj1 (route_distance_is_leg_sum shipped_algorithm [1; 4]) _).
    vm_compute; reflexivity.
  - apply (proj2 (route_distance_is_leg_sum shipped_algorithm [])).
    vm_compute; reflexivity.
  - apply (proj2 (route_distance_is_leg_sum shipped_algorithm [1; 11])).
    vm_compute; reflexivity.
Defined.

Lemma find_smallest_vehicle_monotone_witness :
  OrderLaws Z /\ (20 <= 26)%Z /\
  find_smallest_vehicle vehicle_types_data 26 = Some type_b /\
  exists v, find_smallest_vehicle vehicle_types_data 20 = Some v /\
            fltb (cost_per_km type_b) (cost_per_km v) = false.
Proof.
  split; [exact Z_OrderLaws |]; split; [lia |]; split; [reflexivity |].
  exact (proj1 (@find_smallest_vehicle_monotone Z _ Z_OrderLaws
                  vehicle_types_data 20%Z 26%Z ltac:(lia)) type_b eq_refl).
Defined.

Lemma savings_count_witness :
  exists savings,
    compute_savings sample_algorithm = inr savings /\
    2 * length savings = 3 * (3 - 1).
Proof.
  assert (E : exists savings, compute_savings sample_algorithm = inr savings).
  { vm_compute; eexists; reflexivity. }
  destruct E as (savings & E).
  exists savings; split; [exact E |].
  exact (proj1 (savings_count sample_algorithm savings E)).
Defined.

Lemma is_symmetric_correct_witness :
  EqLaws Z /\ rectangular (cost_matrix sample_algorithm) /\
  is_symmetric (cost_matrix sample_algorithm) = true /\
  symmetric (cost_matrix sample_algorithm) /\
  is_symmetric [[1; 2; 3]; [4; 5; 6]]%Z = false.
Proof.
  assert (Hrect : rectangular (cost_matrix sample_algorithm))
    by (vm_compute; repeat constructor).
  split; [exact Z_EqLaws |]; split; [exact Hrect |].
  split; [vm_compute; reflexivity |].
  split; [| vm_compute; reflexivity].
  exact (proj2 (proj1 (@is_symmetric_correct Z _ _ Z_EqLaws
                         (cost_matrix sample_algorithm) Hrect) eq_refl)).
Defined.

Lemma cost_matrix_is_symmetric_witness :
  MetricLaws Z /\ EqLaws Z /\
  exists self,
    init sample_locations vehicle_types_data = inr self /\
    is_symmetric (cost_matrix self) = true.
Proof.
  split; [exact Z_MetricLaws |]; split; [exact Z_EqLaws |].
  destruct (@cost_matrix_is_symmetric Z _ _ Z_MetricLaws Z_EqLaws
              sample_locations vehicle_types_data)
    as (self & Hinit & _ & _ & Hsym).
  exists self; auto.
Defined.
